(** * cachelab.c: an LRU cache simulator over doubly linked lists

    A shallow embedding of [accessData], of the cache construction done in
    [main] and of the access loop of [replayTrace], with the heap of
    [cache_block]s made explicit: a pointer is [None] (NULL) or [Some a], and
    reading or writing through NULL or through an address that is not
    allocated is a fault.

    Each set is then read as a list of cells ([set_access]), and
    [accessData_rep] shows that a call of accessData on a state that
    represents such lists does to the heap what [set_access] does to the
    list, or faults where [set_access] has no result.  The set invariant,
    the frame of a call, the counters and the independence from the
    allocator follow.  Two places of the code do not do what a recency list
    needs: a hit in the middle of a list leaves the [prev] of the former
    head at NULL (lines 140-144), and the eviction follows [LRU_tail->prev]
    also when it is NULL (lines 173-176).

    Where C leaves a result undefined and the program runs on (an [int]
    counter incremented past INT_MAX, a shift by a count out of range,
    [pow(2.0, s)] that does not fit an [int]), the model does what the
    x86-64 program does: [incr], [shl32], [shr64], [num_sets_of]. *)

From Stdlib Require Import ZArith Lia Bool.
From stdpp Require Import base option list gmap fin_maps.

Local Open Scope Z_scope.
#[local] Set Warnings "-clear-no-such-hyp".

(** ** Faults and the error monad *)

Inductive fault :=
  | NullDeref      (* access through a NULL pointer *)
  | WildDeref      (* access through a pointer to no live block *)
  | OutOfBounds    (* index outside c1.sets / size *)
  | NoReturn.      (* the search loop never leaves a cycle *)

Inductive result (A : Type) :=
  | Ok (a : A)
  | Fault (f : fault).
Arguments Ok {A} a.
Arguments Fault {A} f.

Definition bind {A B} (m : result A) (k : A → result B) : result B :=
  match m with
  | Ok a => k a
  | Fault f => Fault f
  end.

Notation "'do' x <- m ; k" := (bind m (fun x => k))
  (at level 10, x name, m at level 100, k at level 200,
   format "'[v' 'do'  x  <-  m ; '/' k ']'").

(** ** Data: lines 25-50 of cachelab.c *)

Definition addr := positive.
Definition ptr := option addr.          (* NULL is None *)

Definition is_null (p : ptr) : bool :=
  match p with
  | None => true
  | Some _ => false
  end.

Record cache_block := mk_block {
  tag : Z;
  valid : Z;
  next : ptr;
  prev : ptr }.

Record cache_set := mk_set {
  LRU_head : ptr;
  LRU_tail : ptr }.

Record my_cache := mk_cache {
  sets : list cache_set }.

(** [int] and [unsigned long long] conversions, written out: a value is
    reduced modulo 2^32 into the signed range, or modulo 2^64. *)
Definition to_int (z : Z) : Z := (z + 2 ^ 31) mod 2 ^ 32 - 2 ^ 31.
Definition to_ull (z : Z) : Z := z mod 2 ^ 64.

(** [c++] on an [int] counter.  C leaves the overflow undefined; the
    increment the program is compiled to wraps around, and so does the
    model. *)
Definition incr (c : Z) : Z := to_int (c + 1).

(** [x >> n] on a 64-bit value and [x << n] on an [int].  C leaves both
    undefined for a count that is negative or not below the width; the
    x86-64 shift instructions use the count modulo the width, and so does
    the model. *)
Definition shr64 (x n : Z) : Z := Z.shiftr x (n mod 64).
Definition shl32 (x n : Z) : Z := to_int (Z.shiftl x (n mod 32)).

(** The globals of lines 89-100, and the heap the blocks live in.  The three
    counters hold [int] values and are incremented by [incr].  A [size]
    entry is incremented from 0 or from below E only, where [x++] is
    [x + 1]. *)
Record globals := mk_globals {
  s : Z;
  b : Z;
  E : Z;
  c1 : my_cache;
  miss_count : Z;
  hit_count : Z;
  eviction_count : Z;
  size : list Z;
  set_index : Z;
  heap : gmap addr cache_block }.

Definition with_c1 (c : my_cache) (g : globals) : globals :=
  mk_globals (s g) (b g) (E g) c (miss_count g) (hit_count g)
             (eviction_count g) (size g) (set_index g) (heap g).
Definition with_miss_count (z : Z) (g : globals) : globals :=
  mk_globals (s g) (b g) (E g) (c1 g) z (hit_count g)
             (eviction_count g) (size g) (set_index g) (heap g).
Definition with_hit_count (z : Z) (g : globals) : globals :=
  mk_globals (s g) (b g) (E g) (c1 g) (miss_count g) z
             (eviction_count g) (size g) (set_index g) (heap g).
Definition with_eviction_count (z : Z) (g : globals) : globals :=
  mk_globals (s g) (b g) (E g) (c1 g) (miss_count g) (hit_count g)
             z (size g) (set_index g) (heap g).
Definition with_size (l : list Z) (g : globals) : globals :=
  mk_globals (s g) (b g) (E g) (c1 g) (miss_count g) (hit_count g)
             (eviction_count g) l (set_index g) (heap g).
Definition with_set_index (z : Z) (g : globals) : globals :=
  mk_globals (s g) (b g) (E g) (c1 g) (miss_count g) (hit_count g)
             (eviction_count g) (size g) z (heap g).
Definition with_heap (h : gmap addr cache_block) (g : globals) : globals :=
  mk_globals (s g) (b g) (E g) (c1 g) (miss_count g) (hit_count g)
             (eviction_count g) (size g) (set_index g) h.

(** ** Memory: field reads and writes through a pointer *)

Definition load (h : gmap addr cache_block) (p : ptr) : result cache_block :=
  match p with
  | None => Fault NullDeref
  | Some a =>
      match h !! a with
      | Some blk => Ok blk
      | None => Fault WildDeref
      end
  end.

Definition store (h : gmap addr cache_block) (p : ptr)
    (f : cache_block → cache_block) : result (gmap addr cache_block) :=
  match p with
  | None => Fault NullDeref
  | Some a =>
      match h !! a with
      | Some blk => Ok (<[a := f blk]> h)
      | None => Fault WildDeref
      end
  end.

Definition set_tag (z : Z) (k : cache_block) : cache_block :=
  mk_block z (valid k) (next k) (prev k).
Definition set_valid (z : Z) (k : cache_block) : cache_block :=
  mk_block (tag k) z (next k) (prev k).
Definition set_next (p : ptr) (k : cache_block) : cache_block :=
  mk_block (tag k) (valid k) p (prev k).
Definition set_prev (p : ptr) (k : cache_block) : cache_block :=
  mk_block (tag k) (valid k) (next k) p.

(** [p->f] as an rvalue, and [p->f = v]. *)
Definition rd {A} (f : cache_block → A) (p : ptr) (g : globals) : result A :=
  do k <- load (heap g) p; Ok (f k).

Definition wr (f : cache_block → cache_block) (p : ptr) (g : globals)
    : result globals :=
  do h <- store (heap g) p f; Ok (with_heap h g).

(** [free(p)]: the block stops being live; [free(NULL)] does nothing. *)
Definition free (p : ptr) (g : globals) : result globals :=
  match p with
  | None => Ok g
  | Some a =>
      match heap g !! a with
      | Some _ => Ok (with_heap (delete a (heap g)) g)
      | None => Fault WildDeref
      end
  end.

(** [malloc] is a parameter of the model: which address it hands out, what
    the fresh block holds before it is written, and what an unwritten
    [LRU_tail] of the [sets] array holds.  It never returns a live address.
    Allocation is taken to succeed. *)
Record allocator := mk_allocator {
  pick : gmap addr cache_block → addr;
  junk_block : gmap addr cache_block → cache_block;
  junk_tail : nat → ptr;
  pick_fresh : ∀ h, h !! pick h = None }.

Definition malloc (A : allocator) (g : globals) : ptr * globals :=
  (Some (pick A (heap g)),
   with_heap (<[pick A (heap g) := junk_block A (heap g)]> (heap g)) g).

(** ** Array accesses: c1.sets[set_index] and size[set_index] *)

Definition index {X} (l : list X) (i : Z) : result X :=
  if i <? 0 then Fault OutOfBounds
  else match l !! Z.to_nat i with
       | Some x => Ok x
       | None => Fault OutOfBounds
       end.

Definition update {X} (l : list X) (i : Z) (x : X) : result (list X) :=
  do _ <- index l i; Ok (<[Z.to_nat i := x]> l).

Definition rd_head (g : globals) : result ptr :=
  do st <- index (sets (c1 g)) (set_index g); Ok (LRU_head st).
Definition rd_tail (g : globals) : result ptr :=
  do st <- index (sets (c1 g)) (set_index g); Ok (LRU_tail st).
Definition wr_head (p : ptr) (g : globals) : result globals :=
  do st <- index (sets (c1 g)) (set_index g);
  do l <- update (sets (c1 g)) (set_index g) (mk_set p (LRU_tail st));
  Ok (with_c1 (mk_cache l) g).
Definition wr_tail (p : ptr) (g : globals) : result globals :=
  do st <- index (sets (c1 g)) (set_index g);
  do l <- update (sets (c1 g)) (set_index g) (mk_set (LRU_head st) p);
  Ok (with_c1 (mk_cache l) g).
Definition rd_size (g : globals) : result Z :=
  index (size g) (set_index g).
Definition wr_size (z : Z) (g : globals) : result globals :=
  do l <- update (size g) (set_index g) z; Ok (with_size l g).

(** ** accessData, lines 113-193 *)

(** Line 120: the mask [(1<<s) - 1] is computed in [int], widened to the
    address type for [&], and the result is stored in the [int]
    [set_index].  Shift counts out of range are taken as [shl32] and
    [shr64] take them. *)
Definition decode_set_index (vs vb a : Z) : Z :=
  to_int (Z.land (shr64 a vb) (to_ull (to_int (shl32 1 vs - 1)))).

(** Line 121: the shifted address is stored in the [int] [tag]. *)
Definition decode_tag (vs vb a : Z) : Z :=
  to_int (shr64 a (vs + vb)).

(** Lines 125-129.  The loop is run for at most [fuel] tests of its
    condition; it only reads. *)
Fixpoint search (fuel : nat) (t : Z) (curr : ptr) (g : globals) : result ptr :=
  match fuel with
  | O => Fault NoReturn
  | S fuel' =>
      do cn <- rd next curr g;
      if is_null cn then Ok curr
      else
        do ct <- rd tag curr g;
        if ct =? t then Ok curr
        else search fuel' t cn g
  end.

(** A walk that visits more blocks than are live has entered a cycle. *)
Definition search_fuel (g : globals) : nat :=
  S (length (map_to_list (heap g))).

(** Lines 140-144: [curr] is inside the list. *)
Definition unlink_middle (curr : ptr) (g : globals) : result globals :=
  do cp <- rd prev curr g;
  do cn <- rd next curr g;
  do g <- wr (set_next cn) cp g;
  do cn <- rd next curr g;
  do cp <- rd prev curr g;
  do g <- wr (set_prev cp) cn g;
  do hd <- rd_head g;
  do g <- wr (set_next hd) curr g;
  do g <- wr (set_prev None) curr g;
  wr_head curr g.

(** Lines 148-153: [curr] is the last block. *)
Definition unlink_tail (curr : ptr) (g : globals) : result globals :=
  do cp <- rd prev curr g;
  do g <- wr (set_next None) cp g;
  do cp <- rd prev curr g;
  do g <- wr_tail cp g;
  do g <- wr (set_prev None) curr g;
  do hd <- rd_head g;
  do g <- wr (set_prev curr) hd g;
  do hd <- rd_head g;
  do g <- wr (set_next hd) curr g;
  wr_head curr g.

(** Lines 133-157. *)
Definition on_hit (curr : ptr) (g : globals) : result globals :=
  let g := with_hit_count (incr (hit_count g)) g in
  do sz <- rd_size g;
  if 1 <? sz then
    do cp <- rd prev curr g;
    if negb (is_null cp) then
      do cn <- rd next curr g;
      if negb (is_null cn) then unlink_middle curr g
      else unlink_tail curr g
    else Ok g
  else Ok g.

(** Lines 173-178. *)
Definition evict_tail (g : globals) : result globals :=
  do temp <- rd_tail g;
  do tp <- rd prev temp g;
  do g <- wr_tail tp g;
  do g <- free temp g;
  do tl <- rd_tail g;
  do g <- wr (set_next None) tl g;
  let g := with_eviction_count (incr (eviction_count g)) g in
  do sz <- rd_size g;
  wr_size (sz - 1) g.

(** Lines 181-189. *)
Definition insert_head (A : allocator) (t : Z) (g : globals) : result globals :=
  let '(temp, g) := malloc A g in
  do hd <- rd_head g;
  do g <- wr (set_prev temp) hd g;
  do g <- wr (set_tag t) temp g;
  do hd <- rd_head g;
  do g <- wr (set_next hd) temp g;
  do g <- wr (set_prev None) temp g;
  do g <- wr (set_valid 1) temp g;
  do g <- wr_head temp g;
  do sz <- rd_size g;
  wr_size (sz + 1) g.

(** Lines 161-191. *)
Definition on_miss (A : allocator) (t : Z) (curr : ptr) (g : globals)
    : result globals :=
  do sz <- rd_size g;
  do g <-
    (if sz =? 0 then
       do g <- wr (set_tag t) curr g;
       do g <- wr (set_valid 1) curr g;
       do g <- wr_head curr g;
       do g <- wr_tail curr g;
       do sz <- rd_size g;
       wr_size (sz + 1) g
     else
       do sz <- rd_size g;
       do g <- (if E g <=? sz then evict_tail g else Ok g);
       insert_head A t g);
  Ok (with_miss_count (incr (miss_count g)) g).

Definition accessData (A : allocator) (a : Z) (g : globals) : result globals :=
  let g := with_set_index (decode_set_index (s g) (b g) a) g in
  let t := decode_tag (s g) (b g) a in
  do hd <- rd_head g;
  do curr <- search (search_fuel g) t hd g;
  do ct <- rd tag curr g;
  do cv <- rd valid curr g;
  if (ct =? t) && (cv =? 1) then on_hit curr g
  else on_miss A t curr g.

(** The body of accessData once [set_index] and [tag] are computed. *)
Definition access_body (A : allocator) (t : Z) (g : globals) : result globals :=
  do hd <- rd_head g;
  do curr <- search (search_fuel g) t hd g;
  do ct <- rd tag curr g;
  do cv <- rd valid curr g;
  if (ct =? t) && (cv =? 1) then on_hit curr g
  else on_miss A t curr g.

(** ** main, lines 239-270, and replayTrace, lines 326-337 *)

(** Line 239. *)
Definition args_ok (vs vE vb : Z) : bool :=
  negb ((vs =? 0) || (vE =? 0) || (vb =? 0)).

(** Lines 262-270: one head block per set; [LRU_tail] is left unwritten. *)
Fixpoint init_sets (A : allocator) (i : nat) (n : nat)
    (h : gmap addr cache_block) : list cache_set * gmap addr cache_block :=
  match n with
  | O => ([], h)
  | S n' =>
      let a := pick A h in
      let k := set_prev None (set_next None (set_tag (-1)
                 (set_valid 0 (junk_block A h)))) in
      let '(l, h') := init_sets A (S i) n' (<[a := k]> h) in
      (mk_set (Some a) (junk_tail A i) :: l, h')
  end.

(** Line 250: [pow(2.0, s)] stored in the [int] [num_sets].  A power
    below one is truncated to 0.  From s = 31 on the power does not fit; C
    leaves the conversion undefined, and the x86-64 conversion gives
    INT_MIN. *)
Definition num_sets_of (vs : Z) : Z :=
  if vs <? 0 then 0 else if vs <=? 30 then 2 ^ vs else - 2 ^ 31.

(** Lines 250-259: the two arrays of [num_sets] entries, all sizes zero.
    The loops do nothing when [num_sets] is not positive. *)
Definition init_cache (A : allocator) (vs vE vb : Z) : globals :=
  let num_sets := Z.to_nat (num_sets_of vs) in
  let '(l, h) := init_sets A 0 num_sets ∅ in
  mk_globals vs vb vE (mk_cache l) 0 0 0 (replicate num_sets 0) 0 h.

(** A trace line after [sscanf]: the operation letter and the address. *)
Inductive op := Instr | Load | Store | Modify.

Fixpoint replayTrace (A : allocator) (tr : list (op * Z)) (g : globals)
    : result globals :=
  match tr with
  | [] => Ok g
  | (o, a) :: tr' =>
      match o with
      | Instr => replayTrace A tr' g
      | Load | Store =>
          do g <- accessData A a g; replayTrace A tr' g
      | Modify =>
          do g <- accessData A a g;
          do g <- accessData A a g;
          replayTrace A tr' g
      end
  end.

(** What [printSummary] is given. *)
Definition summary (g : globals) : Z * Z * Z :=
  (hit_count g, miss_count g, eviction_count g).

(** Lines 250-277: build the cache, replay, report. *)
Definition simulate (A : allocator) (vs vE vb : Z) (tr : list (op * Z))
    : result (Z * Z * Z) :=
  do g <- replayTrace A tr (init_cache A vs vE vb); Ok (summary g).

(** [main] with the options already parsed: [None] is the usage message
    and exit(1) of lines 239-243, before any cache is built. *)
Definition main (A : allocator) (vs vE vb : Z) (tr : list (op * Z))
    : option (result (Z * Z * Z)) :=
  if args_ok vs vE vb then Some (simulate A vs vE vb tr) else None.

(** ** Reading a set back: the blocks from [LRU_head] along [next] *)

Fixpoint walk (fuel : nat) (h : gmap addr cache_block) (p : ptr)
    : option (list cache_block) :=
  match p with
  | None => Some []
  | Some a =>
      match fuel with
      | O => None
      | S fuel' =>
          match h !! a with
          | Some k =>
              match walk fuel' h (next k) with
              | Some l => Some (k :: l)
              | None => None
              end
          | None => None
          end
      end
  end.

Definition set_blocks (g : globals) (i : nat) : option (list cache_block) :=
  match sets (c1 g) !! i with
  | Some st => walk (length (map_to_list (heap g))) (heap g) (LRU_head st)
  | None => None
  end.

(** The tags of the valid blocks of set [i], most recently used first
    according to the list. *)
Definition live_tags (g : globals) (i : nat) : option (list Z) :=
  match set_blocks g i with
  | Some l => Some (map tag (filter (λ k, valid k = 1) l))
  | None => None
  end.

(** ** A concrete allocator: some address that is not live *)

Definition bump_pick (h : gmap addr cache_block) : addr :=
  fresh (dom h).

Definition bump : allocator :=
  mk_allocator bump_pick (λ _, mk_block 0 0 None None) (λ _, None)
    (λ h, proj1 (not_elem_of_dom h (fresh (dom h))) (is_fresh (dom h))).

(** A run of plain accesses, as [replayTrace] performs them for [L] lines. *)
Definition accesses (A : allocator) (l : list Z) (g : globals) : result globals :=
  replayTrace A (map (λ a, (Load, a)) l) g.

(** The states the program can be in between two calls of [accessData]. *)
Inductive reachable (A : allocator) (vs vE vb : Z) : globals → Prop :=
  | reach_init : reachable A vs vE vb (init_cache A vs vE vb)
  | reach_step g a g' :
      reachable A vs vE vb g →
      accessData A a g = Ok g' →
      reachable A vs vE vb g'.

(** ** The list a set stands for

    A set is read as the list of its blocks from [LRU_head] along [next].
    Each block is described by a [cell]: its tag, its valid field, and
    whether its [prev] field holds the block before it ([linked]) or NULL.
    The payload [X] is the address of the block; the same functions at
    [X := unit] forget addresses. *)

Record cell := mk_cell {
  ctag : Z;
  cvalid : Z;
  linked : bool }.

Inductive outcome := Hit | Miss | MissEvict.

Definition relink {X} (v : bool) (x : X * cell) : X * cell :=
  (x.1, mk_cell (ctag x.2) (cvalid x.2) v).

Definition fill {X} (t : Z) (x : X * cell) : X * cell :=
  (x.1, mk_cell t 1 (linked x.2)).

Definition on_first {X} (f : X → X) (l : list X) : list X :=
  match l with
  | [] => []
  | x :: l' => f x :: l'
  end.

Definition is_nil {X} (l : list X) : bool :=
  match l with
  | [] => true
  | _ :: _ => false
  end.

(** Where the loop of lines 125-129 stops: at the first cell with the tag,
    or at the last cell. *)
Fixpoint find_split {X} (t : Z) (l : list (X * cell))
    : option (list (X * cell) * (X * cell) * list (X * cell)) :=
  match l with
  | [] => None
  | x :: l' =>
      if is_nil l' || (ctag x.2 =? t) then Some ([], x, l')
      else match find_split t l' with
           | Some (l1, y, l2) => Some (x :: l1, y, l2)
           | None => None
           end
  end.

Fixpoint split_last {X} (l : list X) : option (list X * X) :=
  match l with
  | [] => None
  | x :: l' =>
      match split_last l' with
      | None => Some ([], x)
      | Some (l0, z) => Some (x :: l0, z)
      end
  end.

(** Lines 134-157 on the list [l1 ++ c :: l2]. *)
Definition list_hit {X} (sz : Z) (l1 : list (X * cell)) (c : X * cell)
    (l2 : list (X * cell)) : list (X * cell) :=
  if (1 <? sz) && linked c.2 && negb (is_nil l1) then
    match l2 with
    | n :: l2' =>
        relink false c :: on_first (relink false) l1 ++ relink true n :: l2'
    | [] => relink false c :: on_first (relink true) l1
    end
  else l1 ++ c :: l2.

(** Lines 173-178: the last cell goes, when its [prev] leads somewhere. *)
Definition list_evict {X} (l : list (X * cell)) : option (list (X * cell)) :=
  match split_last l with
  | Some (l0, z) => if linked z.2 && negb (is_nil l0) then Some l0 else None
  | None => None
  end.

(** Lines 181-188. *)
Definition list_insert_head {X} (new : X) (t : Z) (l : list (X * cell))
    : list (X * cell) :=
  (new, mk_cell t 1 false) :: on_first (relink true) l.

(** Lines 161-190 on the list [l], where the search stopped at [c] with
    [l2] behind it. *)
Definition list_miss {X} (vE t : Z) (new : X) (sz : Z) (l : list (X * cell))
    (c : X * cell) (l2 : list (X * cell))
    : option (outcome * Z * list (X * cell)) :=
  if sz =? 0 then Some (Miss, sz + 1, fill t c :: l2)
  else if vE <=? sz then
    match list_evict l with
    | Some l' => Some (MissEvict, sz - 1 + 1, list_insert_head new t l')
    | None => None
    end
  else Some (Miss, sz + 1, list_insert_head new t l).

Definition set_access {X} (vE t : Z) (new : X) (sz : Z) (l : list (X * cell))
    : option (outcome * Z * list (X * cell)) :=
  match find_split t l with
  | None => None
  | Some (l1, c, l2) =>
      if (ctag c.2 =? t) && (cvalid c.2 =? 1) then
        Some (Hit, sz, list_hit sz l1 c l2)
      else list_miss vE t new sz l c l2
  end.

Definition forget {X} (l : list (X * cell)) : list (unit * cell) :=
  map (λ x, (tt, x.2)) l.

(** The counters after an access with the given outcome. *)
Definition count (o : outcome) (g : globals) : globals :=
  match o with
  | Hit => with_hit_count (incr (hit_count g)) g
  | Miss => with_miss_count (incr (miss_count g)) g
  | MissEvict =>
      with_miss_count (incr (miss_count g))
        (with_eviction_count (incr (eviction_count g)) g)
  end.

(** The cell of the block [main] gives every set. *)
Definition sentinel : cell := mk_cell (-1) 0 false.

(** ** How a list lies in the heap *)

Definition hdp (l : list (addr * cell)) (nx : ptr) : ptr :=
  match l with
  | [] => nx
  | x :: _ => Some x.1
  end.

Definition lastp (pv : ptr) (l : list (addr * cell)) : ptr :=
  match last l with
  | Some x => Some x.1
  | None => pv
  end.

Definition block_of (c : cell) (pv nx : ptr) : cache_block :=
  mk_block (ctag c) (cvalid c) nx (if linked c then pv else None).

(** [blocks h pv l nx]: the cells of [l] are live blocks of [h], chained by
    [next] and ending in [nx]; [pv] is what precedes the first. *)
Fixpoint blocks (h : gmap addr cache_block) (pv : ptr)
    (l : list (addr * cell)) (nx : ptr) : Prop :=
  match l with
  | [] => True
  | x :: l' =>
      h !! x.1 = Some (block_of x.2 pv (hdp l' nx)) ∧ blocks h (Some x.1) l' nx
  end.

Record rep_set (h : gmap addr cache_block) (st : cache_set) (sz : Z)
    (l : list (addr * cell)) : Prop := mk_rep_set {
  rs_nodup : NoDup l.*1;
  rs_nonempty : l ≠ [];
  rs_head : LRU_head st = hdp l None;
  rs_tail : sz ≠ 0 → LRU_tail st = lastp None l;
  rs_single : sz = 0 → length l = 1%nat;
  rs_blocks : blocks h None l None;
  rs_nonneg : 0 ≤ sz }.

(** The same for a set known to have been filled. *)
Record rep_list (h : gmap addr cache_block) (st : cache_set)
    (l : list (addr * cell)) : Prop := mk_rep_list {
  rl_nodup : NoDup l.*1;
  rl_nonempty : l ≠ [];
  rl_head : LRU_head st = hdp l None;
  rl_tail : LRU_tail st = lastp None l;
  rl_blocks : blocks h None l None }.

(** [rep ll g]: set [i] of [g] is the list [ll !! i], and no block belongs
    to two sets. *)
Record rep (ll : list (list (addr * cell))) (g : globals) : Prop := mk_rep {
  rep_sets_len : length (sets (c1 g)) = length ll;
  rep_size_len : length (size g) = length ll;
  rep_set_at : ∀ i l, ll !! i = Some l →
      ∃ st sz, sets (c1 g) !! i = Some st ∧ size g !! i = Some sz ∧
               rep_set (heap g) st sz l;
  rep_disjoint : ∀ i j li lj, i ≠ j → ll !! i = Some li → ll !! j = Some lj →
      ∀ a, a ∈ li.*1 → a ∉ lj.*1 }.

(** What the blocks of a list look like, for reading a set back. *)
Fixpoint image (pv : ptr) (l : list (addr * cell)) (nx : ptr)
    : list cache_block :=
  match l with
  | [] => []
  | x :: l' => block_of x.2 pv (hdp l' nx) :: image (Some x.1) l' nx
  end.

(** Set [i], its size and the heap replaced. *)
Definition put (i : nat) (st : cache_set) (sz : Z) (h : gmap addr cache_block)
    (g : globals) : globals :=
  mk_globals (s g) (b g) (E g) (mk_cache (<[i := st]> (sets (c1 g))))
             (miss_count g) (hit_count g) (eviction_count g)
             (<[i := sz]> (size g)) (set_index g) h.

(** What a set must satisfy besides lying in the heap: an untouched set is
    one invalid block; a touched one has [size] valid blocks, at most the
    associativity, with different tags. *)
Definition set_inv {X} (vE : Z) (sz : Z) (l : list (X * cell)) : Prop :=
  (sz = 0 ∧ ∃ x, l = [x] ∧ cvalid x.2 = 0) ∨
  (sz = Z.of_nat (length l) ∧ 1 ≤ sz ≤ vE ∧
   Forall (λ x, cvalid x.2 = 1) l ∧ NoDup (map (λ x, ctag x.2) l)).

(** Every set satisfies [set_inv]. *)
Definition sets_inv (vE : Z) (ll : list (list (addr * cell))) (szs : list Z)
    : Prop :=
  ∀ i l sz, ll !! i = Some l → szs !! i = Some sz → set_inv vE sz l.

(** The number of accesses [replayTrace] performs for a trace. *)
Definition accesses_of (o : op) : Z :=
  match o with
  | Instr => 0
  | Load | Store => 1
  | Modify => 2
  end.

Fixpoint total_accesses (tr : list (op * Z)) : Z :=
  match tr with
  | [] => 0
  | (o, _) :: tr' => accesses_of o + total_accesses tr'
  end.

(** accessData on lists without addresses: the set, the outcome, the new
    size and the new list, or the fault. *)
Definition abs_access (vs vb vE : Z) (fl : list (list (unit * cell)))
    (szs : list Z) (a : Z) : result (outcome * Z * list (unit * cell)) :=
  let idx := decode_set_index vs vb a in
  if idx <? 0 then Fault OutOfBounds
  else match fl !! Z.to_nat idx, szs !! Z.to_nat idx with
       | Some l, Some sz =>
           match set_access vE (decode_tag vs vb a) tt sz l with
           | Some r => Ok r
           | None => Fault NullDeref
           end
       | _, _ => Fault OutOfBounds
       end.

(** Two states that differ only in where their blocks are. *)
Definition sim (g1 g2 : globals) : Prop :=
  ∃ ll1 ll2,
    rep ll1 g1 ∧ rep ll2 g2 ∧ forget <$> ll1 = forget <$> ll2 ∧
    size g1 = size g2 ∧ s g1 = s g2 ∧ b g1 = b g2 ∧ E g1 = E g2 ∧
    summary g1 = summary g2.

Definition agree {Y} (R : Y → Y → Prop) (r1 r2 : result Y) : Prop :=
  match r1, r2 with
  | Ok y1, Ok y2 => R y1 y2
  | Fault f1, Fault f2 => f1 = f2
  | _, _ => False
  end.

(** ** Concrete runs *)

(** The state of a run, for naming the states of concrete traces. *)
Definition state_of (r : result globals) : globals :=
  match r with
  | Ok g => g
  | Fault _ => mk_globals 0 0 0 (mk_cache []) 0 0 0 [] 0 ∅
  end.

(** Most recent position at which tag [t] was accessed in an address
    sequence. *)
Fixpoint last_use (vs vb t : Z) (l : list Z) (i : nat) : option nat :=
  match l with
  | [] => None
  | a :: l' =>
      match last_use vs vb t l' (S i) with
      | Some j => Some j
      | None => if decode_tag vs vb a =? t then Some i else None
      end
  end.

(** s=1, E=3, b=1; set 0 after tags 1, 2, 3, then tag 2 again. *)
Definition three_way : globals :=
  state_of (accesses bump [4; 8; 12; 8] (init_cache bump 1 3 1)).

(** s=1, E=2, b=1; after accesses to 0, 64, 2, 128: two lines in set 0
    after one eviction, one line in set 1. *)
Definition two_way : globals :=
  state_of (accesses bump [0; 64; 2; 128] (init_cache bump 1 2 1)).

(** A trace with every kind of line, and the state it leaves. *)
Definition mixed_trace : list (op * Z) :=
  [(Load, 0); (Modify, 64); (Instr, 8); (Store, 2); (Load, 128); (Store, 64)].

Definition mixed : globals :=
  state_of (replayTrace bump mixed_trace (init_cache bump 1 2 1)).

(** s=1, E=1, b=1; after one access to address 0. *)
Definition one_way : globals :=
  state_of (accesses bump [0] (init_cache bump 1 1 1)).

(** s=1, E=3, b=1; set 0 after tags 1, 2, 3, 2, 1, 3, 2. *)
Definition lru_demo : globals :=
  state_of (accesses bump [4; 8; 12; 8; 4; 12; 8] (init_cache bump 1 3 1)).

(** The same run after one more access, to tag 4. *)
Definition stale_tail : globals :=
  state_of (accesses bump [4; 8; 12; 8; 4; 12; 8; 16] (init_cache bump 1 3 1)).

(** Every block but the first has its [prev] set. *)
Definition well_linked {X} (l : list (X * cell)) : Prop :=
  Forall (λ x, linked x.2 = true) (tail l).

(** ** The frame of a call, as the specification words it

    Nothing changes between [g] and [g'] but [sets[i]], [size[i]] and the
    three counters (and with set [i], its blocks). *)
Definition only_set_and_counters_change (i : nat) (g g' : globals) : Prop :=
  s g' = s g ∧ b g' = b g ∧ E g' = E g ∧ set_index g' = set_index g ∧
  ∀ j, j ≠ i →
    sets (c1 g') !! j = sets (c1 g) !! j ∧
    size g' !! j = size g !! j ∧
    set_blocks g' j = set_blocks g j.

(** ** What a set holds: its tags

    The tags of the valid cells of a list, in list order. *)
Definition tags_of {X} (l : list (X * cell)) : list Z :=
  map (λ x, ctag x.2) (filter (λ x, cvalid x.2 = 1) l).

(** A set of a cache with E <= 1: one block, invalid before the first
    miss and valid after it. *)
Definition one_inv {X} (sz : Z) (l : list (X * cell)) : Prop :=
  ∃ x, l = [x] ∧ ((sz = 0 ∧ cvalid x.2 ≠ 1) ∨ (sz = 1 ∧ cvalid x.2 = 1)).

(** The sum of the [size] array. *)
Definition lines_held (g : globals) : Z := foldr Z.add 0 (size g).

(** ** An LRU cache on lists of tags, to compare the code with

    One access to a set kept as the list of its tags, most recently used
    first. *)
Definition lru_touch (vE : Z) (tags : list Z) (t : Z) : outcome * list Z :=
  if bool_decide (t ∈ tags) then (Hit, t :: filter (λ u, u ≠ t) tags)
  else if Z.of_nat (length tags) <? vE then (Miss, t :: tags)
  else (MissEvict, t :: removelast tags).

(** Hits, misses and evictions, in the order of [summary]. *)
Definition add_outcome (o : outcome) (c : Z * Z * Z) : Z * Z * Z :=
  match o with
  | Hit => (c.1.1 + 1, c.1.2, c.2)
  | Miss => (c.1.1, c.1.2 + 1, c.2)
  | MissEvict => (c.1.1, c.1.2 + 1, c.2 + 1)
  end.

Fixpoint lru_run (vs vb vE : Z) (l : list Z) (st : list (list Z))
    (c : Z * Z * Z) : list (list Z) * (Z * Z * Z) :=
  match l with
  | [] => (st, c)
  | a :: l' =>
      let i := Z.to_nat (decode_set_index vs vb a) in
      let r := lru_touch vE (default [] (st !! i)) (decode_tag vs vb a) in
      lru_run vs vb vE l' (<[i := r.2]> st) (add_outcome r.1 c)
  end.


(** The reference run from [2 ^ vs] empty sets. *)
Definition lru_cache (vs vb vE : Z) (l : list Z) : list (list Z) * (Z * Z * Z) :=
  lru_run vs vb vE l (replicate (Z.to_nat (2 ^ vs)) []) (0, 0, 0).

(** The addresses [replayTrace] passes to accessData, lines 327-334: none
    for an [I] line, the address twice for an [M] line. *)
Fixpoint trace_addresses (tr : list (op * Z)) : list Z :=
  match tr with
  | [] => []
  | (Instr, _) :: tr' => trace_addresses tr'
  | (Modify, a) :: tr' => a :: a :: trace_addresses tr'
  | (_, a) :: tr' => a :: trace_addresses tr'
  end.

(** ** printList, lines 196-205 *)

(** What [printList] writes: the heading of line 198 and one item per
    [printf] of line 201. *)
Inductive printed := PrintSet (set : Z) | PrintTag (t : Z).

(** The loop of lines 199-204, run for at most [fuel] tests of its
    condition. *)
Fixpoint print_blocks (fuel : nat) (head : ptr) (g : globals)
    : result (list printed) :=
  match fuel with
  | O => Fault NoReturn
  | S fuel' =>
      do v <- rd valid head g;
      if v =? 1 then
        do t <- rd tag head g;
        do hn <- rd next head g;
        if is_null hn then Ok [PrintTag t]
        else do r <- print_blocks fuel' hn g; Ok (PrintTag t :: r)
      else Ok []
  end.

Definition printList (head : ptr) (set : Z) (g : globals)
    : result (list printed) :=
  do r <- print_blocks (search_fuel g) head g; Ok (PrintSet set :: r).

(** ** A second allocator

    Unlike [bump] it avoids address 1, and what it hands out is not
    zeroed. *)
Definition scatter_pick (h : gmap addr cache_block) : addr :=
  fresh ({[1%positive]} ∪ dom h).

Definition scatter : allocator :=
  mk_allocator scatter_pick
    (λ _, mk_block 7 1 (Some 1%positive) (Some 1%positive))
    (λ _, Some 1%positive)
    (λ h, proj1 (not_elem_of_dom h (scatter_pick h))
            (λ Hin, is_fresh ({[1%positive]} ∪ dom h)
                      (elem_of_union_r _ _ _ Hin))).

(** ** Lists: where the search stops, the last cell, forgetting addresses *)

Lemma split_last_snoc {Y} (l0 : list Y) (z : Y) : split_last (l0 ++ [z]) = Some (l0, z).
Proof.
  induction l0 as [|x l0 IH]; [done|]. simpl. by rewrite IH.
Qed.

Lemma split_last_spec {Y} (l l0 : list Y) (z : Y) :
  split_last l = Some (l0, z) → l = l0 ++ [z].
Proof.
  revert l0. induction l as [|x l IH]; intros l0; simpl; [done|].
  destruct (split_last l) as [[l0' z']|] eqn:Hrec.
  - intros [= <- <-]. by rewrite (IH _ eq_refl).
  - intros [= <- <-]. destruct l as [|y l]; [done|].
    simpl in Hrec. by destruct (split_last l) as [[??]|].
Qed.

Lemma split_last_is_Some {Y} (l : list Y) : l ≠ [] → is_Some (split_last l).
Proof.
  destruct l as [|x l]; [done|]. intros _. simpl.
  destruct (split_last l) as [[??]|]; by eexists.
Qed.

Section ListFacts.
Context {X : Type}.
Implicit Types (l : list (X * cell)) (x c : X * cell).

Lemma find_split_spec t l l1 c l2 :
  find_split t l = Some (l1, c, l2) →
  l = l1 ++ c :: l2 ∧ Forall (λ x, ctag x.2 ≠ t) l1 ∧ (ctag c.2 = t ∨ l2 = []).
Proof.
  revert l1 c l2. induction l as [|x l IH]; intros l1 c l2; simpl; [done|].
  destruct (is_nil l || (ctag x.2 =? t)) eqn:Hstop.
  - intros [= <- <- <-]. split; [done|]. split; [constructor|].
    apply orb_true_iff in Hstop as [Hnil|Htag].
    + right. by destruct l.
    + left. by apply Z.eqb_eq.
  - apply orb_false_iff in Hstop as [_ Htag]. apply Z.eqb_neq in Htag.
    destruct (find_split t l) as [[[l1' y] l2']|] eqn:Hrec; [|done].
    intros [= <- <- <-]. destruct (IH _ _ _ eq_refl) as (-> & Hall & Hc).
    split; [done|]. split; [by constructor|done].
Qed.

Lemma find_split_is_Some t l : l ≠ [] → is_Some (find_split t l).
Proof.
  induction l as [|x l IH]; [done|]. intros _. simpl.
  destruct (is_nil l || (ctag x.2 =? t)) eqn:Hstop; [by eexists|].
  apply orb_false_iff in Hstop as [Hnil _].
  destruct IH as [[[l1 y] l2] ->]; [by destruct l|]. by eexists.
Qed.

Lemma find_split_head t x l :
  ctag x.2 = t → find_split t (x :: l) = Some ([], x, l).
Proof.
  intros Ht. simpl. apply Z.eqb_eq in Ht. rewrite Ht.
  by rewrite orb_true_r.
Qed.

Lemma forget_app l1 l2 : forget (l1 ++ l2) = forget l1 ++ forget l2.
Proof. apply map_app. Qed.

Lemma forget_on_first v l :
  forget (on_first (relink v) l) = on_first (relink v) (forget l).
Proof. by destruct l. Qed.

Lemma forget_is_nil l : is_nil (forget l) = is_nil l.
Proof. by destruct l. Qed.

Lemma find_split_forget t l :
  find_split t (forget l) =
  match find_split t l with
  | Some (l1, c, l2) => Some (forget l1, (tt, c.2), forget l2)
  | None => None
  end.
Proof.
  induction l as [|x l IH]; [done|]. simpl.
  rewrite forget_is_nil. destruct (is_nil l || (ctag x.2 =? t)); [done|].
  fold (forget l). rewrite IH. by destruct (find_split t l) as [[[??]?]|].
Qed.

Lemma list_hit_forget sz l1 c l2 :
  forget (list_hit sz l1 c l2) = list_hit sz (forget l1) (tt, c.2) (forget l2).
Proof.
  unfold list_hit. simpl. rewrite forget_is_nil.
  destruct (_ && _ && _).
  - destruct l2 as [|n l2]; simpl; [by rewrite forget_on_first|].
    f_equal. rewrite forget_app, forget_on_first. done.
  - by rewrite forget_app.
Qed.

Lemma list_evict_forget l :
  list_evict (forget l) =
  match list_evict l with Some l' => Some (forget l') | None => None end.
Proof.
  unfold list_evict. destruct (split_last l) as [[l0 z]|] eqn:Hl.
  - apply split_last_spec in Hl as ->.
    rewrite forget_app. simpl. rewrite split_last_snoc. simpl.
    rewrite forget_is_nil. by destruct (_ && _).
  - destruct l as [|x l]; [done|].
    destruct (split_last_is_Some (x :: l)) as [? Hs]; [done|].
    by rewrite Hs in Hl.
Qed.

(** The decisions and the counters do not depend on where blocks are. *)
Lemma set_access_forget vE t new sz l :
  set_access vE t tt sz (forget l) =
  match set_access vE t new sz l with
  | Some (o, sz', l') => Some (o, sz', forget l')
  | None => None
  end.
Proof.
  unfold set_access. rewrite find_split_forget.
  destruct (find_split t l) as [[[l1 c] l2]|]; [|done]. simpl.
  destruct (_ && _); [by rewrite list_hit_forget|].
  unfold list_miss. destruct (sz =? 0); [done|].
  destruct (vE <=? sz).
  - rewrite list_evict_forget. destruct (list_evict l) as [l'|]; [|done].
    unfold list_insert_head. simpl. by rewrite forget_on_first.
  - unfold list_insert_head. simpl. by rewrite forget_on_first.
Qed.

End ListFacts.

(** ** Lists in the heap *)

Section HeapFacts.
Implicit Types (h : gmap addr cache_block) (l : list (addr * cell)).
Implicit Types (pv nx : ptr).

Lemma lastp_cons pv x l : lastp pv (x :: l) = lastp (Some x.1) l.
Proof.
  unfold lastp. rewrite last_cons. by destruct (last l).
Qed.

Lemma lastp_snoc pv l x : lastp pv (l ++ [x]) = Some x.1.
Proof.
  unfold lastp. by rewrite last_snoc.
Qed.

Lemma hdp_app l1 l2 nx : hdp (l1 ++ l2) nx = hdp l1 (hdp l2 nx).
Proof. by destruct l1. Qed.

Lemma hdp_on_first (f : addr * cell → addr * cell) l nx :
  (∀ x, (f x).1 = x.1) → hdp (on_first f l) nx = hdp l nx.
Proof. intros Hf. destruct l; simpl; [done|]. by rewrite Hf. Qed.

Lemma blocks_app h pv l1 l2 nx :
  blocks h pv (l1 ++ l2) nx ↔
  blocks h pv l1 (hdp l2 nx) ∧ blocks h (lastp pv l1) l2 nx.
Proof.
  revert pv. induction l1 as [|x l1 IH]; intros pv; simpl.
  - unfold lastp. simpl. tauto.
  - rewrite IH, lastp_cons, hdp_app. tauto.
Qed.

Lemma blocks_agree h h' pv l nx :
  (∀ a, a ∈ l.*1 → h' !! a = h !! a) →
  blocks h pv l nx → blocks h' pv l nx.
Proof.
  revert pv. induction l as [|x l IH]; intros pv Hag; simpl; [done|].
  intros [Hx Hl]. split.
  - rewrite Hag; [done|]. simpl. left.
  - apply IH; [|done]. intros a Ha. apply Hag. simpl. by right.
Qed.

Lemma blocks_live h pv l nx a :
  blocks h pv l nx → a ∈ l.*1 → is_Some (h !! a).
Proof.
  revert pv. induction l as [|x l IH]; intros pv; simpl.
  - intros _ Ha. by apply elem_of_nil in Ha.
  - intros [Hx Hl] [->|Ha]%elem_of_cons; [by eexists|by eapply IH].
Qed.

Lemma blocks_first_unlinked h pv pv' l nx :
  blocks h pv l nx →
  match l with x :: _ => linked x.2 = false | [] => True end →
  blocks h pv' l nx.
Proof.
  destruct l as [|x l]; simpl; [done|].
  intros [Hx Hl] Hu. split; [|done].
  rewrite Hx. unfold block_of. by rewrite Hu.
Qed.

Lemma live_length h l :
  NoDup l.*1 → (∀ a, a ∈ l.*1 → is_Some (h !! a)) →
  (length l ≤ length (map_to_list h))%nat.
Proof.
  intros Hnd Hlive.
  rewrite <- (length_fmap fst l), <- (length_fmap fst (map_to_list h)).
  apply submseteq_length, NoDup_submseteq; [done|].
  intros a Ha. destruct (Hlive a Ha) as [k Hk].
  apply list_elem_of_fmap. exists (a, k). split; [done|].
  by apply elem_of_map_to_list.
Qed.

(** The search stops where [find_split] says. *)
Lemma search_blocks fuel t g pv l l1 c l2 :
  blocks (heap g) pv l None →
  find_split t l = Some (l1, c, l2) →
  (length l1 < fuel)%nat →
  search fuel t (hdp l None) g = Ok (Some c.1).
Proof.
  revert fuel pv l1. induction l as [|x l IH]; intros fuel pv l1; [done|].
  intros [Hx Hl] Hfs Hfuel.
  destruct fuel as [|fuel]; [lia|].
  simpl in *. unfold rd at 1. simpl. rewrite Hx. simpl.
  destruct l as [|y l].
  - simpl in *. by injection Hfs as <- <- <-.
  - simpl in Hfs |- *. unfold rd at 1. simpl. rewrite Hx. simpl.
    destruct (ctag x.2 =? t).
    + by injection Hfs as <- <- <-.
    + destruct (if is_nil l || (ctag y.2 =? t) then _ else _)
        as [[[l1' c'] l2']|] eqn:Hrec; [|done].
      injection Hfs as <- <- <-.
      apply (IH fuel (Some x.1) l1'); [done|done|simpl in Hfuel; lia].
Qed.

Lemma walk_blocks fuel h pv l :
  blocks h pv l None → (length l ≤ fuel)%nat →
  walk fuel h (hdp l None) = Some (image pv l None).
Proof.
  revert fuel pv. induction l as [|x l IH]; intros fuel pv.
  - intros _ _. by destruct fuel.
  - intros [Hx Hl] Hfuel. destruct fuel as [|fuel]; [simpl in Hfuel; lia|].
    simpl. rewrite Hx. simpl.
    rewrite (IH fuel (Some x.1)); [done|done|simpl in Hfuel; lia].
Qed.

Lemma image_tags pv l nx :
  map tag (filter (λ k, valid k = 1) (image pv l nx)) =
  map (λ x, ctag x.2) (filter (λ x, cvalid x.2 = 1) l).
Proof.
  revert pv. induction l as [|x l IH]; intros pv; [done|].
  simpl. rewrite !filter_cons. simpl.
  destruct (decide (cvalid x.2 = 1)); simpl; by rewrite IH.
Qed.

End HeapFacts.

(** ** The statements of accessData on a state in focus *)

Section Focus.
Variables (i : nat) (g : globals).
Hypothesis Hidx : set_index g = Z.of_nat i.
Hypothesis Hsets : (i < length (sets (c1 g)))%nat.
Hypothesis Hsize : (i < length (size g))%nat.
Implicit Types (st : cache_set) (sz : Z) (h : gmap addr cache_block).

Lemma index_insert {Y} (l : list Y) (y : Y) :
  (i < length l)%nat → index (<[i := y]> l) (Z.of_nat i) = Ok y.
Proof.
  intros Hlt. unfold index.
  destruct (Z.ltb_spec (Z.of_nat i) 0); [lia|].
  by rewrite Nat2Z.id, list_lookup_insert_eq.
Qed.

Lemma update_insert {Y} (l : list Y) (y y' : Y) :
  (i < length l)%nat →
  update (<[i := y]> l) (Z.of_nat i) y' = Ok (<[i := y']> l).
Proof.
  intros Hlt. unfold update. rewrite index_insert by done. simpl.
  by rewrite Nat2Z.id, list_insert_insert_eq.
Qed.

Lemma rd_put {Y} (f : cache_block → Y) a k st sz h :
  h !! a = Some k → rd f (Some a) (put i st sz h g) = Ok (f k).
Proof. intros Hk. unfold rd. simpl. by rewrite Hk. Qed.

Lemma wr_put f a k st sz h :
  h !! a = Some k →
  wr f (Some a) (put i st sz h g) = Ok (put i st sz (<[a := f k]> h) g).
Proof. intros Hk. unfold wr. simpl. by rewrite Hk. Qed.

Lemma free_put a k st sz h :
  h !! a = Some k →
  free (Some a) (put i st sz h g) = Ok (put i st sz (delete a h) g).
Proof. intros Hk. unfold free. simpl. by rewrite Hk. Qed.

Lemma malloc_put A st sz h :
  malloc A (put i st sz h g) =
  (Some (pick A h), put i st sz (<[pick A h := junk_block A h]> h) g).
Proof. done. Qed.

Lemma rd_head_put st sz h : rd_head (put i st sz h g) = Ok (LRU_head st).
Proof.
  unfold rd_head. simpl. rewrite Hidx. by rewrite index_insert.
Qed.

Lemma rd_tail_put st sz h : rd_tail (put i st sz h g) = Ok (LRU_tail st).
Proof.
  unfold rd_tail. simpl. rewrite Hidx. by rewrite index_insert.
Qed.

Lemma wr_head_put p st sz h :
  wr_head p (put i st sz h g) = Ok (put i (mk_set p (LRU_tail st)) sz h g).
Proof.
  unfold wr_head. simpl. rewrite Hidx, index_insert by done. simpl.
  by rewrite update_insert.
Qed.

Lemma wr_tail_put p st sz h :
  wr_tail p (put i st sz h g) = Ok (put i (mk_set (LRU_head st) p) sz h g).
Proof.
  unfold wr_tail. simpl. rewrite Hidx, index_insert by done. simpl.
  by rewrite update_insert.
Qed.

Lemma rd_size_put st sz h : rd_size (put i st sz h g) = Ok sz.
Proof.
  unfold rd_size. simpl. rewrite Hidx. by rewrite index_insert.
Qed.

Lemma wr_size_put z st sz h :
  wr_size z (put i st sz h g) = Ok (put i st z h g).
Proof.
  unfold wr_size. simpl. rewrite Hidx. by rewrite update_insert.
Qed.

Lemma put_id st sz :
  sets (c1 g) !! i = Some st → size g !! i = Some sz →
  put i st sz (heap g) g = g.
Proof.
  intros Hst Hsz. unfold put. rewrite !list_insert_id by done.
  by destruct g as [? ? ? []].
Qed.

End Focus.

Lemma snoc_cases {Y} (l : list Y) : l = [] ∨ ∃ l' y, l = l' ++ [y].
Proof.
  destruct (split_last l) as [[l' y]|] eqn:Hl.
  - right. exists l', y. by apply split_last_spec.
  - left. destruct l as [|x l]; [done|].
    destruct (split_last_is_Some (x :: l)) as [? Hs]; [done|]. congruence.
Qed.

Ltac heap_lookup :=
  repeat first
    [ rewrite lookup_insert_eq
    | rewrite lookup_insert_ne by (simpl; congruence)
    | rewrite lookup_delete_ne by (simpl; congruence) ];
  first [reflexivity | eassumption].

Lemma blocks_insert_ne h pv l nx a k :
  a ∉ l.*1 → blocks h pv l nx → blocks (<[a := k]> h) pv l nx.
Proof.
  intros Ha. apply blocks_agree. intros a' Ha'.
  apply lookup_insert_ne. by intros ->.
Qed.

Lemma blocks_delete_ne h pv l nx a :
  a ∉ l.*1 → blocks h pv l nx → blocks (delete a h) pv l nx.
Proof.
  intros Ha. apply blocks_agree. intros a' Ha'.
  apply lookup_delete_ne. by intros ->.
Qed.

Lemma lastp_on_first (f : addr * cell → addr * cell) pv l :
  (∀ x, (f x).1 = x.1) → lastp pv (on_first f l) = lastp pv l.
Proof.
  intros Hf. destruct l as [|x l]; [done|]. simpl.
  rewrite !lastp_cons. by rewrite Hf.
Qed.

Lemma fst_on_first (f : addr * cell → addr * cell) l :
  (∀ x, (f x).1 = x.1) → (on_first f l).*1 = l.*1.
Proof.
  intros Hf. destruct l as [|x l]; [done|]. simpl. by rewrite Hf.
Qed.

Ltac nodup_facts H :=
  rewrite ?fmap_app, ?fmap_cons in H;
  repeat first [rewrite NoDup_app in H | rewrite NoDup_cons in H];
  destruct_and? H.

Ltac exec :=
  cbn [bind prev next tag valid LRU_head LRU_tail is_null negb block_of].

Ltac block_eq :=
  rewrite ?lastp_cons, ?lastp_snoc;
  unfold block_of, set_next, set_prev, set_tag, set_valid; simpl;
  rewrite ?hdp_app; simpl;
  repeat match goal with
    | |- context [if linked ?c then _ else _] => destruct (linked c)
    end;
  try done.

(** ** The list operations of accessData, statement by statement *)

Section Relink.
Variables (i : nat) (g : globals).
Hypothesis Hidx : set_index g = Z.of_nat i.
Hypothesis Hsets : (i < length (sets (c1 g)))%nat.
Hypothesis Hsize : (i < length (size g))%nat.

Lemma unlink_middle_spec h st sz l1 p c n l2 :
  NoDup (l1 ++ p :: c :: n :: l2).*1 →
  LRU_head st = hdp (l1 ++ [p]) None →
  blocks h None (l1 ++ p :: c :: n :: l2) None →
  linked c.2 = true →
  ∃ h',
    unlink_middle (Some c.1) (put i st sz h g) =
      Ok (put i (mk_set (Some c.1) (LRU_tail st)) sz h' g) ∧
    blocks h' None
      (relink false c :: on_first (relink false) (l1 ++ [p]) ++ relink true n :: l2)
      None ∧
    (∀ a, a ∉ (l1 ++ p :: c :: n :: l2).*1 → h' !! a = h !! a).
Proof.
  intros Hnd Hhd Hb Hlc.
  apply blocks_app in Hb as [Hb1 Hb]. simpl in Hb.
  destruct Hb as (Hp & Hc & Hn & Hb2).
  assert (p.1 ≠ c.1 ∧ p.1 ≠ n.1 ∧ c.1 ≠ n.1) as (?&?&?).
  { nodup_facts Hnd. set_solver. }
  unfold block_of in Hc. rewrite Hlc in Hc.
  eexists. split; [|split].
  - unfold unlink_middle.
    erewrite !rd_put by heap_lookup. exec.
    erewrite wr_put by heap_lookup. exec.
    erewrite !rd_put by heap_lookup. exec.
    erewrite wr_put by heap_lookup. exec.
    rewrite rd_head_put by done. exec.
    erewrite wr_put by heap_lookup. exec.
    erewrite wr_put by heap_lookup. exec.
    rewrite wr_head_put by done. exec. reflexivity.
  - simpl. split.
    { rewrite lookup_insert_eq. f_equal. unfold block_of, set_prev, set_next.
      simpl. f_equal. rewrite Hhd. by destruct l1. }
    apply blocks_app. split.
    + destruct l1 as [|x l1].
      * simpl. split; [|done]. rewrite !lookup_insert_ne by done.
        rewrite lookup_insert_eq. block_eq.
      * destruct Hb1 as [Hx Hb1]. nodup_facts Hnd. simpl.
        assert (x.1 ≠ c.1 ∧ x.1 ≠ n.1 ∧ x.1 ≠ p.1) as (?&?&?) by set_solver.
        split.
        { rewrite !lookup_insert_ne by done. rewrite Hx. block_eq. }
        apply blocks_app. split.
        { repeat apply blocks_insert_ne; [set_solver..|done]. }
        simpl. split; [|done]. rewrite !lookup_insert_ne by done.
        rewrite lookup_insert_eq. block_eq.
    + rewrite lastp_on_first by done. rewrite lastp_snoc. simpl. split.
      * rewrite !lookup_insert_ne by done. rewrite lookup_insert_eq. block_eq.
      * nodup_facts Hnd.
        repeat apply blocks_insert_ne; [set_solver..|done].
  - intros a Ha. rewrite fmap_app, !fmap_cons in Ha.
    rewrite !lookup_insert_ne; [done|set_solver..].
Qed.

Lemma unlink_tail_spec h st sz l1 p c :
  NoDup (l1 ++ [p; c]).*1 →
  LRU_head st = hdp (l1 ++ [p]) None →
  blocks h None (l1 ++ [p; c]) None →
  linked c.2 = true →
  ∃ h',
    unlink_tail (Some c.1) (put i st sz h g) =
      Ok (put i (mk_set (Some c.1) (Some p.1)) sz h' g) ∧
    blocks h' None (relink false c :: on_first (relink true) (l1 ++ [p])) None ∧
    (∀ a, a ∉ (l1 ++ [p; c]).*1 → h' !! a = h !! a).
Proof.
  intros Hnd Hhd Hb Hlc.
  apply blocks_app in Hb as [Hb1 Hb]. simpl in Hb.
  destruct Hb as (Hp & Hc & _).
  unfold block_of in Hc. rewrite Hlc in Hc.
  destruct l1 as [|x l1].
  - assert (p.1 ≠ c.1) by (nodup_facts Hnd; set_solver).
    simpl in Hhd, Hp. eexists. split; [|split].
    + unfold unlink_tail.
      erewrite !rd_put by heap_lookup. exec.
      erewrite wr_put by heap_lookup. exec.
      erewrite !rd_put by heap_lookup. exec.
      rewrite wr_tail_put by done. exec.
      erewrite wr_put by heap_lookup. exec.
      rewrite rd_head_put by done. exec. rewrite ?Hhd.
      erewrite wr_put by heap_lookup. exec.
      rewrite rd_head_put by done. exec. rewrite ?Hhd.
      erewrite wr_put by heap_lookup. exec.
      rewrite wr_head_put by done. exec. reflexivity.
    + simpl. split; [|split; [|done]].
      * rewrite lookup_insert_eq. block_eq.
      * rewrite !lookup_insert_ne by done. rewrite lookup_insert_eq. block_eq.
    + intros a Ha. rewrite fmap_app, !fmap_cons in Ha.
      rewrite !lookup_insert_ne; [done|set_solver..].
  - destruct Hb1 as [Hx Hb1]. rewrite lastp_cons in Hp.
    assert (x.1 ≠ c.1 ∧ x.1 ≠ p.1 ∧ p.1 ≠ c.1) as (?&?&?).
    { nodup_facts Hnd. set_solver. }
    simpl in Hhd. eexists. split; [|split].
    + unfold unlink_tail.
      erewrite !rd_put by heap_lookup. exec.
      erewrite wr_put by heap_lookup. exec.
      erewrite !rd_put by heap_lookup. exec.
      rewrite wr_tail_put by done. exec.
      erewrite wr_put by heap_lookup. exec.
      rewrite rd_head_put by done. exec. rewrite ?Hhd.
      erewrite wr_put by heap_lookup. exec.
      rewrite rd_head_put by done. exec. rewrite ?Hhd.
      erewrite wr_put by heap_lookup. exec.
      rewrite wr_head_put by done. exec. reflexivity.
    + simpl. split; [|split].
      * rewrite lookup_insert_eq. block_eq.
      * rewrite !lookup_insert_ne by done. rewrite lookup_insert_eq. block_eq.
      * nodup_facts Hnd. apply blocks_app. split.
        { repeat apply blocks_insert_ne; [set_solver..|done]. }
        simpl. split; [|done]. rewrite !lookup_insert_ne by done.
        rewrite lookup_insert_eq. block_eq.
    + intros a Ha. rewrite fmap_app, !fmap_cons in Ha.
      rewrite !lookup_insert_ne; [done|set_solver..].
Qed.

Lemma evict_tail_ok h st sz l0 p z :
  rep_list h st (l0 ++ [p; z]) →
  linked z.2 = true →
  ∃ h',
    evict_tail (put i st sz h g) =
      Ok (put i (mk_set (LRU_head st) (Some p.1)) (sz - 1) h'
            (with_eviction_count (incr (eviction_count g)) g)) ∧
    rep_list h' (mk_set (LRU_head st) (Some p.1)) (l0 ++ [p]) ∧
    (∀ a, a ∉ (l0 ++ [p; z]).*1 → h' !! a = h !! a).
Proof.
  intros [Hnd _ Hhd Htl Hb] Hlz.
  apply blocks_app in Hb as [Hb1 Hb]. simpl in Hb.
  destruct Hb as (Hp & Hz & _).
  nodup_facts Hnd.
  assert (p.1 ≠ z.1) by set_solver.
  replace (l0 ++ [p; z]) with ((l0 ++ [p]) ++ [z]) in Htl
    by by rewrite <- app_assoc.
  rewrite lastp_snoc in Htl.
  unfold block_of in Hz. rewrite Hlz in Hz.
  eexists. split; [|split].
  - unfold evict_tail.
    rewrite rd_tail_put by done. exec. rewrite ?Htl.
    erewrite rd_put by heap_lookup. exec.
    rewrite wr_tail_put by done. exec.
        erewrite free_put by heap_lookup. exec.
    rewrite rd_tail_put by done. exec.
    erewrite wr_put by heap_lookup. exec.
    change (with_eviction_count ?z (put ?i ?st ?sz ?h g))
      with (put i st sz h (with_eviction_count z g)).
    rewrite rd_size_put by done. exec.
    rewrite wr_size_put by done. reflexivity.
  - split.
    + rewrite fmap_app, fmap_cons, NoDup_app, NoDup_cons. set_solver.
    + by destruct l0.
    + simpl. rewrite hdp_app in Hhd |- *. by destruct l0.
    + simpl. by rewrite lastp_snoc.
    + apply blocks_app. split.
      * apply blocks_insert_ne; [set_solver|].
        apply blocks_delete_ne; [set_solver|]. done.
      * simpl. split; [|done]. rewrite lookup_insert_eq. block_eq.
  - intros a Ha. rewrite fmap_app, !fmap_cons in Ha.
    rewrite lookup_insert_ne by set_solver.
    rewrite lookup_delete_ne by set_solver. done.
Qed.

Lemma evict_tail_fault h st sz l :
  rep_list h st l → list_evict l = None →
  evict_tail (put i st sz h g) = Fault NullDeref.
Proof.
  intros [Hnd Hne Hhd Htl Hb] Hev.
  destruct (snoc_cases l) as [->|(l0 & z & ->)]; [done|].
  unfold list_evict in Hev. rewrite split_last_snoc in Hev.
  rewrite lastp_snoc in Htl.
  apply blocks_app in Hb as [Hb1 [Hz _]].
  assert ((if linked z.2 then lastp None l0 else None) = None) as Hprev.
  { destruct (linked z.2); [|done]. destruct l0; [done|]. done. }
  unfold evict_tail.
  rewrite rd_tail_put by done. exec. rewrite ?Htl.
  erewrite rd_put by heap_lookup. exec. rewrite Hprev.
  rewrite wr_tail_put by done. exec.
  erewrite free_put by heap_lookup. exec.
  rewrite rd_tail_put by done. exec. done.
Qed.

Lemma insert_head_spec A t h st sz l :
  rep_list h st l →
  ∃ st' h',
    insert_head A t (put i st sz h g) = Ok (put i st' (sz + 1) h' g) ∧
    rep_list h' st' (list_insert_head (pick A h) t l) ∧
    (∀ a, a ≠ pick A h → a ∉ l.*1 → h' !! a = h !! a).
Proof.
  intros [Hnd Hne Hhd Htl Hb].
  destruct l as [|x l]; [done|]. simpl in Hhd, Hb.
  destruct Hb as [Hx Hb].
  pose proof (pick_fresh A h) as Hfresh.
  assert (x.1 ≠ pick A h) by (intros Heq; rewrite Heq in Hx; congruence).
  assert (pick A h ∉ l.*1) as Hnl.
  { intros Hin. destruct (blocks_live _ _ _ _ _ Hb Hin). congruence. }
  nodup_facts Hnd.
  eexists _, _. split; [|split].
  - unfold insert_head. rewrite malloc_put. exec.
    rewrite rd_head_put by done. exec. rewrite ?Hhd.
    erewrite wr_put by heap_lookup. exec.
    erewrite wr_put by heap_lookup. exec.
    rewrite rd_head_put by done. exec. rewrite ?Hhd.
    erewrite wr_put by heap_lookup. exec.
    erewrite wr_put by heap_lookup. exec.
    erewrite wr_put by heap_lookup. exec.
    rewrite wr_head_put by done. exec.
    rewrite rd_size_put by done. exec.
    rewrite wr_size_put by done. reflexivity.
  - split; simpl.
    + rewrite !NoDup_cons. set_solver.
    + done.
    + done.
    + rewrite Htl. unfold list_insert_head. simpl. by rewrite !lastp_cons.
    + split; [|split].
      * rewrite lookup_insert_eq. block_eq.
      * rewrite !lookup_insert_ne by done. rewrite lookup_insert_eq. block_eq.
      * repeat apply blocks_insert_ne; [set_solver..|done].
  - intros a Ha1 Ha2. rewrite fmap_cons in Ha2.
    rewrite !lookup_insert_ne; [done|set_solver..].
Qed.

Lemma fill_spec t h st sz x :
  h !! x.1 = Some (block_of x.2 None None) →
  ∃ h',
    (do g <- wr (set_tag t) (Some x.1) (put i st sz h g);
     do g <- wr (set_valid 1) (Some x.1) g;
     do g <- wr_head (Some x.1) g;
     do g <- wr_tail (Some x.1) g;
     do sz <- rd_size g;
     wr_size (sz + 1) g) =
      Ok (put i (mk_set (Some x.1) (Some x.1)) (sz + 1) h' g) ∧
    rep_list h' (mk_set (Some x.1) (Some x.1)) [fill t x] ∧
    (∀ a, a ≠ x.1 → h' !! a = h !! a).
Proof.
  intros Hx. eexists. split; [|split].
  - erewrite wr_put by heap_lookup. exec.
    erewrite wr_put by heap_lookup. exec.
    rewrite wr_head_put by done. exec.
    rewrite wr_tail_put by done. exec.
    rewrite rd_size_put by done. exec.
    rewrite wr_size_put by done. reflexivity.
  - split; simpl; [apply NoDup_singleton|done|done|done|].
    split; [|done]. rewrite lookup_insert_eq. block_eq.
  - intros a Ha. by rewrite !lookup_insert_ne.
Qed.

End Relink.

(** ** accessData on a represented state *)

Ltac refold_fmap :=
  repeat match goal with
    | |- context [list_fmap ?A ?B ?f ?l] =>
        change (list_fmap A B f l) with (f <$> l)
    end.

Ltac incl_goal :=
  let a := fresh "a" in
  intros a; refold_fmap;
  rewrite ?fmap_cons, ?fmap_app, ?fst_on_first by done;
  rewrite ?fmap_cons, ?fmap_app; set_solver.

Ltac nodup_goal :=
  refold_fmap;
  rewrite ?fmap_app, ?fmap_cons, ?fst_on_first by done;
  rewrite ?fmap_app, ?fmap_cons, ?fmap_nil;
  repeat first [rewrite NoDup_app | rewrite NoDup_cons];
  cbn [relink fill fst];
  repeat match goal with |- _ ∧ _ => split end;
  try apply NoDup_nil_2; try done; set_solver.

Lemma lastp_app_cons pv l x l2 : lastp pv (l ++ x :: l2) = lastp (Some x.1) l2.
Proof.
  revert pv. induction l as [|y l IH]; intros pv; simpl.
  - apply lastp_cons.
  - by rewrite lastp_cons, IH.
Qed.

Lemma rep_set_list h st sz l : rep_set h st sz l → sz ≠ 0 → rep_list h st l.
Proof. intros [] Hsz. split; auto. Qed.

Lemma rep_list_set h st sz l : rep_list h st l → 0 < sz → rep_set h st sz l.
Proof. intros [] Hsz. split; auto; lia. Qed.

Lemma on_hit_spec i g h st sz l1 c l2 :
  set_index g = Z.of_nat i →
  (i < length (sets (c1 g)))%nat →
  (i < length (size g))%nat →
  rep_set h st sz (l1 ++ c :: l2) →
  ∃ st' h',
    on_hit (Some c.1) (put i st sz h g) = Ok (put i st' sz h' (count Hit g)) ∧
    rep_set h' st' sz (list_hit sz l1 c l2) ∧
    (∀ a, a ∉ (l1 ++ c :: l2).*1 → h' !! a = h !! a) ∧
    (∀ a, a ∈ (list_hit sz l1 c l2).*1 → a ∈ (l1 ++ c :: l2).*1).
Proof.
  intros Hidx Hsets Hsize Hrep.
  pose proof Hrep as [Hnd Hne Hhd Htl Hsg Hb Hnn].
  apply blocks_app in Hb as [Hb1 [Hc Hb2]].
  unfold on_hit, list_hit.
  change (with_hit_count ?z (put ?i ?st ?sz ?h g))
    with (put i st sz h (count Hit g)).
  set (g' := count Hit g).
  assert (set_index g' = Z.of_nat i) as Hidx' by done.
  rewrite rd_size_put by done. exec.
  destruct (1 <? sz) eqn:Hsz; simpl;
    [|by eexists _, _].
  apply Z.ltb_lt in Hsz.
  erewrite rd_put by heap_lookup. exec.
  destruct (linked c.2) eqn:Hlc; simpl;
    [|by eexists _, _].
  destruct (snoc_cases l1) as [->|(l1' & p & ->)]; simpl;
    [by eexists _, _|].
  rewrite lastp_snoc. exec.
  replace (is_nil (l1' ++ [p])) with false by by destruct l1'.
  simpl. erewrite rd_put by heap_lookup. exec.
  rewrite <- app_assoc in Hrep, Hnd, Htl |- *. simpl in Hrep, Hnd, Htl |- *.
  apply blocks_app in Hb1 as [Hb1 [Hp _]]. simpl in Hb1, Hp.
  assert (LRU_head st = hdp (l1' ++ [p]) None) as Hhd'.
  { rewrite Hhd. by destruct l1'. }
  destruct l2 as [|n l2]; simpl.
  - destruct (unlink_tail_spec i g' Hidx' Hsets Hsize h st sz l1' p c)
      as (h' & Hex & Hb' & Hfr); [done|done| |done|].
    { apply blocks_app. split; [done|]. simpl. by rewrite lastp_snoc in Hc. }
        rewrite Hex. eexists _, _. split; [done|]. split; [|split; [done|]].
    + split; simpl.
      * clear -Hnd. nodup_facts Hnd. nodup_goal.
      * done.
      * done.
      * intros _. rewrite lastp_cons, lastp_on_first by done.
        by rewrite lastp_snoc.
      * lia.
      * done.
      * done.
    + incl_goal.
  - destruct (unlink_middle_spec i g' Hidx' Hsets Hsize h st sz l1' p c n l2)
      as (h' & Hex & Hb' & Hfr); [done|done| |done|].
    { apply blocks_app. split; [done|]. simpl. by rewrite lastp_snoc in Hc. }
    rewrite Hex. eexists _, _. split; [done|]. split; [|split; [done|]].
    + split; simpl.
      * clear -Hnd. nodup_facts Hnd. nodup_goal.
      * done.
      * done.
      * intros Hz. rewrite (Htl Hz). rewrite lastp_cons.
        by rewrite !lastp_app_cons, !lastp_cons.
      * lia.
      * done.
      * done.
    + incl_goal.
Qed.

Lemma on_miss_spec A t i g h st sz l1 c l2 :
  set_index g = Z.of_nat i →
  (i < length (sets (c1 g)))%nat →
  (i < length (size g))%nat →
  rep_set h st sz (l1 ++ c :: l2) →
  ((∀ new, list_miss (E g) t new sz (l1 ++ c :: l2) c l2 = None) ∧
   on_miss A t (Some c.1) (put i st sz h g) = Fault NullDeref) ∨
  (∃ new o sz' l' st' h',
     list_miss (E g) t new sz (l1 ++ c :: l2) c l2 = Some (o, sz', l') ∧
     on_miss A t (Some c.1) (put i st sz h g) = Ok (put i st' sz' h' (count o g)) ∧
     rep_set h' st' sz' l' ∧
     (∀ a, a ∉ (l1 ++ c :: l2).*1 → is_Some (h !! a) → h' !! a = h !! a) ∧
     (∀ a, a ∈ l'.*1 → a ∈ (l1 ++ c :: l2).*1 ∨ h !! a = None)).
Proof.
  intros Hidx Hsets Hsize Hrep.
  unfold on_miss, list_miss.
  rewrite rd_size_put by done. exec.
  destruct (sz =? 0) eqn:Hsz.
  - apply Z.eqb_eq in Hsz. right.
    destruct Hrep as [Hnd Hne Hhd Htl Hsg Hb Hnn].
    specialize (Hsg Hsz). rewrite length_app in Hsg. simpl in Hsg.
    destruct l1; [|simpl in Hsg; lia]. destruct l2; [|simpl in Hsg; lia].
    simpl in Hb. destruct Hb as [Hc _].
    destruct (fill_spec i g Hidx Hsets Hsize t h st sz c Hc) as (h' & Hex & Hrl & Hfr).
    rewrite Hex. exec.
    exists c.1, Miss, (sz + 1), [fill t c]. eexists _, _.
    split; [done|]. split; [done|]. split; [|split].
    + apply rep_list_set; [done|lia].
    + intros a Ha _. apply Hfr. simpl in Ha. set_solver.
    + intros a Ha. left. done.
  - apply Z.eqb_neq in Hsz.
    pose proof (rep_set_list _ _ _ _ Hrep Hsz) as Hrl.
    pose proof (rs_nonneg _ _ _ _ Hrep) as Hnn.
    exec.
    change (E (put i st sz h g)) with (E g).
    destruct (E g <=? sz) eqn:HE.
    + destruct (list_evict (l1 ++ c :: l2)) as [l0|] eqn:Hev.
      * right. unfold list_evict in Hev.
        destruct (snoc_cases (l1 ++ c :: l2)) as [Hnil|(l0' & z & Hl)];
          [by destruct l1|].
        rewrite Hl in Hev, Hrl |- *. rewrite split_last_snoc in Hev.
        destruct (linked z.2) eqn:Hlz; [|done].
        destruct (snoc_cases l0') as [->|(l0'' & p & ->)]; [done|].
        replace (is_nil (l0'' ++ [p])) with false in Hev by by destruct l0''.
        simpl in Hev. injection Hev as <-.
        rewrite <- app_assoc in Hrl |- *. simpl in Hrl |- *.
        destruct (evict_tail_ok i g Hidx Hsets Hsize h st sz l0'' p z Hrl Hlz)
          as (h1 & Hex1 & Hrl1 & Hfr1).
        rewrite Hex1. exec.
        set (g1 := with_eviction_count (incr (eviction_count g)) g) in *.
        assert (set_index g1 = Z.of_nat i) as Hidx1 by done.
        destruct (insert_head_spec i g1 Hidx1 Hsets Hsize A t h1 _ (sz - 1)
                    _ Hrl1) as (st' & h' & Hex2 & Hrl2 & Hfr2).
        rewrite Hex2. exec.
        exists (pick A h1), MissEvict, (sz - 1 + 1). eexists _, st', h'.
        split; [done|]. split; [done|]. split; [|split].
        -- apply rep_list_set; [done|lia].
        -- intros a Ha Hlive. rewrite Hfr2.
           ++ by apply Hfr1.
           ++ intros ->. rewrite <- (Hfr1 _ Ha), pick_fresh in Hlive.
              by destruct Hlive.
           ++ revert Ha. rewrite !fmap_app, !fmap_cons. set_solver.
        -- intros a Ha. unfold list_insert_head in Ha.
           rewrite fmap_cons, fst_on_first in Ha by done.
           apply elem_of_cons in Ha as [->|Ha].
           ++ destruct (decide (pick A h1 ∈ (l0'' ++ [p; z]).*1)) as [|Hn];
                [by left|right].
              simpl. rewrite <- (Hfr1 _ Hn). apply pick_fresh.
           ++ left. revert Ha. rewrite !fmap_app, !fmap_cons. set_solver.
      * left. split; [done|].
        by rewrite (evict_tail_fault i g Hidx Hsets Hsize h st sz _ Hrl Hev).
    + right. exec.
      destruct (insert_head_spec i g Hidx Hsets Hsize A t h st sz _ Hrl)
        as (st' & h' & Hex2 & Hrl2 & Hfr2).
      rewrite Hex2. exec.
      exists (pick A h), Miss, (sz + 1). eexists _, st', h'.
      split; [done|]. split; [done|]. split; [|split].
      * apply rep_list_set; [done|lia].
      * intros a Ha Hlive. apply Hfr2; [|done].
        intros ->. rewrite pick_fresh in Hlive. by destruct Hlive.
      * intros a Ha. unfold list_insert_head in Ha.
        rewrite fmap_cons, fst_on_first in Ha by done.
        apply elem_of_cons in Ha as [->|Ha]; [right; simpl; apply pick_fresh|by left].
Qed.

Lemma rep_put ll g i l st' sz' h' l' g' :
  rep ll g → ll !! i = Some l →
  rep_set h' st' sz' l' →
  (∀ a, a ∉ l.*1 → is_Some (heap g !! a) → h' !! a = heap g !! a) →
  (∀ a, a ∈ l'.*1 → a ∈ l.*1 ∨ heap g !! a = None) →
  sets (c1 g') = <[i := st']> (sets (c1 g)) →
  size g' = <[i := sz']> (size g) →
  heap g' = h' →
  rep (<[i := l']> ll) g'.
Proof.
  intros [Hl1 Hl2 Hat Hdis] Hi Hrs Hfr Hin Hs Hz Hh.
  pose proof (lookup_lt_Some _ _ _ Hi) as Hlt.
  assert (∀ j lj a, j ≠ i → ll !! j = Some lj → a ∈ lj.*1 →
            (a ∉ l.*1) ∧ is_Some (heap g !! a)) as Hother.
  { intros j lj a Hji Hj Ha. split; [by eapply (Hdis j i)|].
    destruct (Hat j lj Hj) as (st & sz & _ & _ & Hr).
    eapply blocks_live; [apply (rs_blocks _ _ _ _ Hr)|done]. }
  split.
  - by rewrite Hs, !length_insert.
  - by rewrite Hz, !length_insert.
  - intros j lj Hj. rewrite Hs, Hz, Hh.
    destruct (decide (j = i)) as [->|Hji].
    + rewrite list_lookup_insert_eq in Hj by done. injection Hj as <-.
      exists st', sz'. rewrite !list_lookup_insert_eq by lia. done.
    + rewrite list_lookup_insert_ne in Hj by done.
      destruct (Hat j lj Hj) as (st & sz & Hst & Hsz & Hr).
      exists st, sz. rewrite !list_lookup_insert_ne by done.
      split; [done|]. split; [done|].
      destruct Hr. split; try done.
      eapply blocks_agree; [|done]. intros a Ha.
      destruct (Hother j lj a Hji Hj Ha). by apply Hfr.
  - intros j k lj lk Hjk Hj Hk a Ha Hak.
    destruct (decide (j = i)) as [->|Hji].
    + rewrite list_lookup_insert_eq in Hj by done. injection Hj as <-.
      rewrite list_lookup_insert_ne in Hk by done.
      destruct (Hother k lk a (not_eq_sym Hjk) Hk Hak) as [Hnl [v Hv]].
      destruct (Hin a Ha); [done|congruence].
    + rewrite list_lookup_insert_ne in Hj by done.
      destruct (decide (k = i)) as [->|Hki].
      * rewrite list_lookup_insert_eq in Hk by done. injection Hk as <-.
        destruct (Hother j lj a Hji Hj Ha) as [Hnl [v Hv]].
        destruct (Hin a Hak); [done|congruence].
      * rewrite list_lookup_insert_ne in Hk by done.
        by eapply (Hdis j k).
Qed.

Lemma accessData_body A a g :
  accessData A a g =
  access_body A (decode_tag (s g) (b g) a)
    (with_set_index (decode_set_index (s g) (b g) a) g).
Proof. done. Qed.

Lemma access_body_put A t i g h st sz l :
  set_index g = Z.of_nat i →
  (i < length (sets (c1 g)))%nat →
  (i < length (size g))%nat →
  rep_set h st sz l →
  (set_access (E g) t tt sz (forget l) = None ∧
   access_body A t (put i st sz h g) = Fault NullDeref) ∨
  (∃ new o sz' l' st' h',
     set_access (E g) t new sz l = Some (o, sz', l') ∧
     access_body A t (put i st sz h g) = Ok (put i st' sz' h' (count o g)) ∧
     rep_set h' st' sz' l' ∧
     (∀ a, a ∉ l.*1 → is_Some (h !! a) → h' !! a = h !! a) ∧
     (∀ a, a ∈ l'.*1 → a ∈ l.*1 ∨ h !! a = None)).
Proof.
  intros Hidx Hsets Hsize Hrep.
  destruct (find_split_is_Some t l (rs_nonempty _ _ _ _ Hrep))
    as [[[l1 c] l2] Hfs].
  destruct (find_split_spec _ _ _ _ _ Hfs) as (-> & _ & _).
  pose proof Hrep as [Hnd Hne Hhd Htl Hsg Hb Hnn].
  set (gp := put i st sz h g).
  assert (search (search_fuel gp) t (LRU_head st) gp = Ok (Some c.1))
    as Hsearch.
  { rewrite Hhd. eapply search_blocks; [done|done|]. unfold search_fuel.
    assert (length (l1 ++ c :: l2) ≤ length (map_to_list h))%nat.
    { apply live_length; [done|]. intros a' Ha'. by eapply blocks_live. }
    rewrite length_app in *. simpl in *. lia. }
  apply blocks_app in Hb as [_ [Hc _]].
  assert (access_body A t gp =
          if (ctag c.2 =? t) && (cvalid c.2 =? 1) then on_hit (Some c.1) gp
          else on_miss A t (Some c.1) gp) as ->.
  { unfold access_body. unfold gp at 1.
    rewrite rd_head_put by done. exec.
    rewrite Hsearch. exec. unfold gp.
    by erewrite !rd_put by done. }
  unfold gp. clear gp Hsearch.
  rewrite set_access_forget with (new := c.1).
  unfold set_access. rewrite Hfs.
  destruct ((ctag c.2 =? t) && (cvalid c.2 =? 1)); exec.
  - right.
    destruct (on_hit_spec i g h st sz l1 c l2 Hidx Hsets Hsize Hrep)
      as (st' & h' & Hex & Hr' & Hfr & Hin).
        rewrite Hex. exists c.1, Hit, sz. eexists _, st', h'.
    split; [done|]. split; [done|]. split; [done|]. split.
    + intros a' Ha' _. by apply Hfr.
    + intros a' Ha'. left. by apply Hin.
  - destruct (on_miss_spec A t i g h st sz l1 c l2 Hidx Hsets Hsize Hrep)
      as [[Hnone Hex]|(new & o & sz' & l' & st' & h' & Hsome & Hex & Hr')].
    + left. by rewrite Hnone, Hex.
    + right. rewrite Hex. exists new, o, sz', l', st', h'. by rewrite Hsome.
Qed.

(** One call of accessData on a represented state. *)
Lemma accessData_rep A a g ll :
  rep ll g →
  let idx := decode_set_index (s g) (b g) a in
  let t := decode_tag (s g) (b g) a in
  let i := Z.to_nat idx in
  (¬ (0 ≤ idx ∧ (i < length ll)%nat) ∧ accessData A a g = Fault OutOfBounds) ∨
  (∃ l sz, 0 ≤ idx ∧ ll !! i = Some l ∧ size g !! i = Some sz ∧
     ((set_access (E g) t tt sz (forget l) = None ∧
       accessData A a g = Fault NullDeref) ∨
      (∃ new o sz' l' st' h',
         set_access (E g) t new sz l = Some (o, sz', l') ∧
         accessData A a g = Ok (put i st' sz' h' (count o (with_set_index idx g))) ∧
         rep (<[i := l']> ll)
             (put i st' sz' h' (count o (with_set_index idx g)))))).
Proof.
  intros Hrep idx t i. rewrite accessData_body. fold idx t.
  set (g0 := with_set_index idx g).
  destruct (decide (0 ≤ idx ∧ (i < length ll)%nat)) as [[Hpos Hlt]|Hout].
  - right. destruct (lookup_lt_is_Some_2 ll i Hlt) as [l Hl].
    destruct (rep_set_at _ _ Hrep i l Hl) as (st & sz & Hst & Hsz & Hrs).
    exists l, sz. split; [done|]. split; [done|]. split; [done|].
    assert (set_index g0 = Z.of_nat i) as Hidx.
    { unfold i. by rewrite Z2Nat.id. }
    pose proof (lookup_lt_Some _ _ _ Hst) as Hsets.
    pose proof (lookup_lt_Some _ _ _ Hsz) as Hsize.
    assert (access_body A t g0 = access_body A t (put i st sz (heap g) g0))
      as ->.
    { change (heap g) with (heap g0).
      by rewrite (put_id i g0 Hidx Hsets Hsize st sz Hst Hsz). }
    destruct (access_body_put A t i g0 (heap g) st sz l Hidx Hsets Hsize Hrs)
      as [[Hnone Hex]|(new & o & sz' & l' & st' & h' & Hsome & Hex & Hr' & Hfr & Hin)].
    + left. done.
    + right. exists new, o, sz', l', st', h'. split; [done|]. split; [done|].
      eapply rep_put; try done; by destruct o.
  - left. split; [done|]. unfold access_body, rd_head, index.
    change (set_index g0) with idx. change (sets (c1 g0)) with (sets (c1 g)).
    destruct (idx <? 0) eqn:Hneg; [done|].
    apply Z.ltb_ge in Hneg. fold i.
    destruct (sets (c1 g) !! i) eqn:Hlk; [|done].
    apply lookup_lt_Some in Hlk. rewrite (rep_sets_len _ _ Hrep) in Hlk.
    tauto.
Qed.

(** ** The constructed cache, and what every access keeps *)

Lemma init_sets_spec A n : ∀ i h,
  ∃ ll,
    length ll = n ∧
    length (init_sets A i n h).1 = n ∧
    (∀ j lj, ll !! j = Some lj →
       ∃ a st, lj = [(a, sentinel)] ∧ (init_sets A i n h).1 !! j = Some st ∧
               LRU_head st = Some a ∧
               (init_sets A i n h).2 !! a = Some (block_of sentinel None None) ∧
               h !! a = None) ∧
    (∀ j k lj lk, j ≠ k → ll !! j = Some lj → ll !! k = Some lk →
       ∀ a, a ∈ lj.*1 → a ∉ lk.*1) ∧
    (∀ a, is_Some (h !! a) → (init_sets A i n h).2 !! a = h !! a).
Proof.
  induction n as [|n IH]; intros i h.
  - exists []. simpl. repeat split; try done.
  - simpl.
    set (a := pick A h).
    set (k := set_prev None (set_next None (set_tag (-1)
                (set_valid 0 (junk_block A h))))).
    destruct (IH (S i) (<[a := k]> h)) as (ll & Hlen & Hlen' & Hat & Hdis & Hfr).
    destruct (init_sets A (S i) n (<[a := k]> h)) as [l h'] eqn:Hinit.
    simpl in *.
    assert (h !! a = None) as Hfresh by apply pick_fresh.
    exists ([(a, sentinel)] :: ll). split; [simpl; lia|]. split; [lia|].
    split; [|split].
    + intros [|j] lj Hj; simpl in Hj.
      * injection Hj as <-. exists a, (mk_set (Some a) (junk_tail A i)).
        split; [done|]. split; [done|]. split; [done|]. split; [|done].
        rewrite Hfr by (rewrite lookup_insert_eq; by eexists).
        by rewrite lookup_insert_eq.
      * destruct (Hat j lj Hj) as (a' & st & -> & Hst & Hhd & Hblk & Hnone).
        exists a', st. split; [done|]. split; [done|]. split; [done|].
        split; [done|].
        destruct (decide (a = a')) as [<-|Hne].
        -- by rewrite lookup_insert_eq in Hnone.
        -- by rewrite lookup_insert_ne in Hnone.
    + intros [|j] [|k'] lj lk Hjk Hj Hk a' Ha Ha'; simpl in Hj, Hk; try done.
      * injection Hj as <-.
        destruct (Hat k' lk Hk) as (a'' & st & -> & _ & _ & _ & Hnone).
        apply list_elem_of_singleton in Ha, Ha'. simpl in Ha, Ha'. subst.
        by rewrite lookup_insert_eq in Hnone.
      * injection Hk as <-.
        destruct (Hat j lj Hj) as (a'' & st & -> & _ & _ & _ & Hnone).
        apply list_elem_of_singleton in Ha, Ha'. simpl in Ha, Ha'. subst.
        by rewrite lookup_insert_eq in Hnone.
      * eapply (Hdis j k'); [congruence|done..].
    + intros a' [v Hv]. rewrite Hfr.
      * apply lookup_insert_ne. intros <-. congruence.
      * rewrite lookup_insert_ne; [by eexists|]. intros <-. congruence.
Qed.

Lemma num_sets_of_small vs : 0 ≤ vs ≤ 30 → num_sets_of vs = 2 ^ vs.
Proof.
  intros Hvs. unfold num_sets_of.
  destruct (vs <? 0) eqn:H1; [apply Z.ltb_lt in H1; lia|].
  destruct (vs <=? 30) eqn:H2; [done|apply Z.leb_gt in H2; lia].
Qed.

Lemma init_cache_rep A vs vE vb :
  ∃ ll, rep ll (init_cache A vs vE vb) ∧
        length ll = Z.to_nat (num_sets_of vs) ∧
        Forall (λ l, ∃ a, l = [(a, sentinel)]) ll.
Proof.
  unfold init_cache.
  destruct (init_sets_spec A (Z.to_nat (num_sets_of vs)) 0%nat ∅)
    as (ll & Hlen & Hlen' & Hat & Hdis & _).
  destruct (init_sets A 0 (Z.to_nat (num_sets_of vs)) ∅) as [l h] eqn:Hinit.
  simpl in *. exists ll. split; [|split; [done|]].
  - split; simpl.
    + lia.
    + by rewrite length_replicate.
    + intros i li Hi.
      destruct (Hat i li Hi) as (a & st & -> & Hst & Hhd & Hblk & _).
      exists st, 0. split; [done|]. split.
      { apply lookup_replicate. split; [done|].
        apply lookup_lt_Some in Hi. lia. }
      split; simpl; try done; try apply NoDup_singleton; lia.
    + done.
  - apply Forall_forall. intros li Hin.
    apply list_elem_of_lookup in Hin as [i Hi].
    destruct (Hat i li Hi) as (a & st & -> & _). by eexists.
Qed.

Section Invariant.
Context {X : Type}.
Implicit Types (l : list (X * cell)) (x c : X * cell).

Definition key (x : X * cell) : Z * Z := (ctag x.2, cvalid x.2).

Lemma key_on_first v l : key <$> on_first (relink v) l = key <$> l.
Proof. by destruct l. Qed.

Lemma length_on_first (f : X * cell → X * cell) l :
  length (on_first f l) = length l.
Proof. by destruct l. Qed.

Lemma tags_on_first v l :
  map (λ x, ctag x.2) (on_first (relink v) l) = map (λ x, ctag x.2) l.
Proof. by destruct l. Qed.

Lemma valid_on_first v l :
  Forall (λ x, cvalid x.2 = 1) (on_first (relink v) l) ↔
  Forall (λ x, cvalid x.2 = 1) l.
Proof. destruct l; [done|]. simpl. by rewrite !Forall_cons. Qed.

Lemma list_hit_keys sz l1 c l2 :
  key <$> list_hit sz l1 c l2 ≡ₚ key <$> (l1 ++ c :: l2).
Proof.
  unfold list_hit. destruct (_ && _ && _); [|done].
  destruct l2 as [|n l2].
  - rewrite fmap_cons, key_on_first, fmap_app. simpl.
    by rewrite <- Permutation_cons_append.
  - rewrite !fmap_cons, !fmap_app, key_on_first, !fmap_cons.
    change (key (relink false c)) with (key c).
    change (key (relink true n)) with (key n).
    by rewrite Permutation_middle.
Qed.

Lemma set_inv_keys vE sz l l' :
  key <$> l' ≡ₚ key <$> l → set_inv vE sz l → sz ≠ 0 → set_inv vE sz l'.
Proof.
  intros Hp [[? _]|(Hlen & Hb & Hv & Hnd)] Hsz; [done|]. right.
  assert (length l' = length l) as Hll.
  { rewrite <- (length_fmap key l'), <- (length_fmap key l). by rewrite Hp. }
  split; [by rewrite Hll|]. split; [done|]. split.
  - apply Forall_fmap with (f := key) (P := λ k, k.2 = 1).
    rewrite Hp. by apply Forall_fmap.
  - replace (map (λ x, ctag x.2) l') with ((key <$> l').*1)
      by (rewrite <- list_fmap_compose; done).
    rewrite Hp. by rewrite <- list_fmap_compose.
Qed.

Lemma set_access_inv vE t new sz l o sz' l' :
  1 ≤ vE → set_inv vE sz l →
  set_access vE t new sz l = Some (o, sz', l') →
  set_inv vE sz' l'.
Proof.
  intros HE Hinv. unfold set_access.
  destruct (find_split t l) as [[[l1 c] l2]|] eqn:Hfs; [|done].
  destruct (find_split_spec _ _ _ _ _ Hfs) as (-> & Hl1 & Hc).
  destruct ((ctag c.2 =? t) && (cvalid c.2 =? 1)) eqn:Hhit.
  - intros [= <- <- <-].
    apply andb_true_iff in Hhit as [_ Hv%Z.eqb_eq].
    eapply set_inv_keys; [apply list_hit_keys|done|].
    intros ->. destruct Hinv as [[_ (x & Hx & Hvx)]|[Hlen _]].
    + destruct l1; [|by destruct l1]. injection Hx as -> ->. lia.
    + rewrite length_app in Hlen. simpl in Hlen. lia.
  - unfold list_miss. destruct (sz =? 0) eqn:Hsz.
    + intros [= <- <- <-]. apply Z.eqb_eq in Hsz as ->.
      destruct Hinv as [[_ (x & Hx & Hvx)]|[_ [? _]]]; [|lia].
      destruct l1; [|by destruct l1]. injection Hx as -> ->.
      right. simpl. split; [done|]. split; [lia|]. split.
      * by constructor.
      * apply NoDup_singleton.
    + apply Z.eqb_neq in Hsz.
      destruct Hinv as [[? _]|(Hlen & Hb & Hv & Hnd)]; [done|].
      assert (ctag c.2 ≠ t) as Hct.
      { intros Heq. apply Forall_app in Hv as [_ Hv].
        apply Forall_cons in Hv as [Hv _].
        apply Z.eqb_eq in Heq, Hv. by rewrite Heq, Hv in Hhit. }
      destruct Hc as [?| ->]; [done|].
      assert (t ∉ map (λ x, ctag x.2) (l1 ++ [c])) as Hfresh.
      { rewrite map_app. simpl. intros [Hin|Hin]%elem_of_app.
        - apply list_elem_of_fmap in Hin as (y & -> & Hy).
          by apply (proj1 (Forall_forall _ _) Hl1 y).
        - apply list_elem_of_singleton in Hin. done. }
      destruct (vE <=? sz) eqn:Hfull.
      * destruct (list_evict (l1 ++ [c])) as [l0|] eqn:Hev; [|done].
        intros [= <- <- <-]. unfold list_evict in Hev.
        rewrite split_last_snoc in Hev.
        destruct (linked c.2 && negb (is_nil l1)); [|done].
        injection Hev as <-.
        rewrite length_app in Hlen. simpl in Hlen.
        rewrite map_app in Hnd, Hfresh. apply NoDup_app in Hnd as [Hnd _].
        apply Forall_app in Hv as [Hv _].
        right. unfold list_insert_head. simpl.
        rewrite length_on_first, tags_on_first.
        split; [lia|]. split; [lia|]. split.
        { constructor; [done|]. by apply valid_on_first. }
        apply NoDup_cons. split; [|done].
        intros Hin. apply Hfresh, elem_of_app. by left.
      * apply Z.leb_gt in Hfull. intros [= <- <- <-].
        right. unfold list_insert_head. simpl.
        rewrite length_on_first, tags_on_first.
        split; [lia|]. split; [lia|]. split.
        { constructor; [done|]. by apply valid_on_first. }
        by apply NoDup_cons.
Qed.

End Invariant.

(** ** Reachable states *)

Lemma reachable_rep A vs vE vb g :
  reachable A vs vE vb g →
  ∃ ll, rep ll g ∧ s g = vs ∧ E g = vE ∧ b g = vb ∧
        (1 ≤ vE → sets_inv vE ll (size g)).
Proof.
  induction 1 as [|g a g' Hreach IH Hstep].
  - destruct (init_cache_rep A vs vE vb) as (ll & Hrep & Hlen & Hall).
    exists ll. split; [done|].
    unfold init_cache in *.
    destruct (init_sets A 0 (Z.to_nat (num_sets_of vs)) ∅) as [l h].
    simpl. repeat split; try done.
    intros _ i li sz Hi Hsz. simpl in Hsz.
    apply lookup_replicate in Hsz as [-> _].
    left. split; [done|].
    destruct (proj1 (Forall_forall _ _) Hall li) as [a ->].
    { by eapply list_elem_of_lookup_2. }
    by eexists.
  - destruct IH as (ll & Hrep & Hs & HE & Hb & Hinv).
    destruct (accessData_rep A a g ll Hrep)
      as [[_ Hf]|(l & sz & Hpos & Hl & Hsz &
                  [[_ Hf]|(new & o & sz' & l' & st' & h' & Hacc & Hex & Hrep')])];
      [congruence|congruence|].
    rewrite Hex in Hstep. injection Hstep as <-.
    eexists. split; [done|].
    split; [by destruct o|]. split; [by destruct o|]. split; [by destruct o|].
    intros HvE i li szi Hi Hszi.
    assert (size (put (Z.to_nat (decode_set_index (s g) (b g) a)) st' sz' h'
              (count o (with_set_index (decode_set_index (s g) (b g) a) g)))
            = <[Z.to_nat (decode_set_index (s g) (b g) a) := sz']> (size g))
      as Hsize by by destruct o.
    rewrite Hsize in Hszi. clear Hsize.
    destruct (decide (i = Z.to_nat (decode_set_index (s g) (b g) a)))
      as [->|Hne].
    + rewrite list_lookup_insert_eq in Hi by by eapply lookup_lt_Some.
      rewrite list_lookup_insert_eq in Hszi by by eapply lookup_lt_Some.
      injection Hi as <-. injection Hszi as <-.
      eapply set_access_inv; [done| |by rewrite <- HE].
      by eapply Hinv.
    + rewrite list_lookup_insert_ne in Hi by done.
      rewrite list_lookup_insert_ne in Hszi by done.
      by eapply Hinv.
Qed.

Lemma filter_Forall_id {Y} (P : Y → Prop) `{∀ y, Decision (P y)} (l : list Y) :
  Forall P l → filter P l = l.
Proof.
  induction 1 as [|y l Hy Hl IH]; [done|].
  rewrite filter_cons. destruct (decide (P y)); [|done]. by rewrite IH.
Qed.

(** Reading a represented set back gives the blocks of its list. *)
Lemma set_blocks_rep ll g i l :
  rep ll g → ll !! i = Some l → set_blocks g i = Some (image None l None).
Proof.
  intros Hrep Hl.
  destruct (rep_set_at _ _ Hrep i l Hl) as (st & sz & Hst & _ & Hrs).
  unfold set_blocks. rewrite Hst.
  rewrite (rs_head _ _ _ _ Hrs).
  apply walk_blocks; [apply (rs_blocks _ _ _ _ Hrs)|].
  apply live_length; [apply (rs_nodup _ _ _ _ Hrs)|].
  intros a' Ha'. eapply blocks_live; [apply (rs_blocks _ _ _ _ Hrs)|done].
Qed.

(** Claim C6 (set invariant).  In every state reachable from the
    constructed cache by calls of accessData, with associativity at least 1,
    each set read back along [next] holds at most E valid blocks, and the
    tags of its valid blocks are pairwise different. *)
Theorem reachable_sets_bounded A vs vE vb g i :
  1 ≤ vE →
  reachable A vs vE vb g →
  (i < length (sets (c1 g)))%nat →
  ∃ tags, live_tags g i = Some tags ∧
          Z.of_nat (length tags) ≤ vE ∧ NoDup tags.
Proof.
  intros HvE Hreach Hi.
  destruct (reachable_rep A vs vE vb g Hreach) as (ll & Hrep & _ & _ & _ & Hinv).
  rewrite (rep_sets_len _ _ Hrep) in Hi.
  destruct (lookup_lt_is_Some_2 ll i Hi) as [l Hl].
  destruct (rep_set_at _ _ Hrep i l Hl) as (st & sz & _ & Hsz & _).
  unfold live_tags. rewrite (set_blocks_rep ll g i l Hrep Hl).
  eexists. split; [done|]. rewrite image_tags.
  destruct (Hinv HvE i l sz Hl Hsz) as [[_ (x & -> & Hx)]|(Hlen & Hb & Hv & Hnd)].
  - rewrite filter_cons. destruct (decide (cvalid x.2 = 1)); [lia|].
    simpl. split; [lia|constructor].
  - rewrite filter_Forall_id by done. rewrite length_map. split; [lia|done].
Qed.

(** What one call does to a reachable state, in one statement. *)
Lemma accessData_reachable A vs vE vb g a g' :
  reachable A vs vE vb g →
  accessData A a g = Ok g' →
  ∃ ll l sz new o sz' l' st' h',
    let idx := decode_set_index (s g) (b g) a in
    rep ll g ∧ 0 ≤ idx ∧
    ll !! Z.to_nat idx = Some l ∧ size g !! Z.to_nat idx = Some sz ∧
    set_access (E g) (decode_tag (s g) (b g) a) new sz l = Some (o, sz', l') ∧
    g' = put (Z.to_nat idx) st' sz' h' (count o (with_set_index idx g)) ∧
    rep (<[Z.to_nat idx := l']> ll) g'.
Proof.
  intros Hreach Hstep.
  destruct (reachable_rep A vs vE vb g Hreach) as (ll & Hrep & _).
  destruct (accessData_rep A a g ll Hrep)
    as [[_ Hf]|(l & sz & Hpos & Hl & Hsz &
                [[_ Hf]|(new & o & sz' & l' & st' & h' & Hacc & Hex & Hrep')])];
    [congruence|congruence|].
  rewrite Hex in Hstep. injection Hstep as <-.
  by exists ll, l, sz, new, o, sz', l', st', h'.
Qed.

(** Claim C10 (frame), as amended.  A call of accessData on an address
    that decodes to set index [i] leaves every other set [j] as it was: the
    same head and tail pointers, the same [size[j]], and the same blocks in
    the same order when set [j] is read back along [next]; it leaves s, b
    and E as they were.  Besides set [i], [size[i]] and the counters it
    writes the global [set_index], which becomes [i]. *)
Theorem accessData_frame A vs vE vb g a g' j :
  reachable A vs vE vb g →
  accessData A a g = Ok g' →
  Z.of_nat j ≠ decode_set_index (s g) (b g) a →
  sets (c1 g') !! j = sets (c1 g) !! j ∧
  size g' !! j = size g !! j ∧
  set_blocks g' j = set_blocks g j ∧
  s g' = s g ∧ b g' = b g ∧ E g' = E g ∧
  set_index g' = decode_set_index (s g) (b g) a.
Proof.
  intros Hreach Hstep Hj.
  destruct (accessData_reachable A vs vE vb g a g' Hreach Hstep)
    as (ll & l & sz & new & o & sz' & l' & st' & h' &
        Hrep & Hpos & Hl & Hsz & _ & -> & Hrep').
  set (idx := decode_set_index (s g) (b g) a) in *.
  assert (Z.to_nat idx ≠ j) as Hne by lia.
  split; [|split; [|split; [|by destruct o]]].
  - destruct o; simpl; by rewrite list_lookup_insert_ne.
  - destruct o; simpl; by rewrite list_lookup_insert_ne.
  - destruct (ll !! j) as [lj|] eqn:Hlj.
    + rewrite (set_blocks_rep ll g j lj Hrep Hlj).
      apply (set_blocks_rep _ _ j lj Hrep').
      by rewrite list_lookup_insert_ne.
    + apply lookup_ge_None in Hlj. unfold set_blocks.
      rewrite (proj2 (lookup_ge_None (sets (c1 g)) j))
        by by rewrite (rep_sets_len _ _ Hrep).
      rewrite (proj2 (lookup_ge_None _ j)); [done|].
      rewrite (rep_sets_len _ _ Hrep'), length_insert. done.
Qed.

Lemma accessData_counts A vs vE vb g a g' :
  reachable A vs vE vb g →
  accessData A a g = Ok g' →
  ∃ o, summary g' = summary (count o g).
Proof.
  intros Hreach Hstep.
  destruct (accessData_reachable A vs vE vb g a g' Hreach Hstep)
    as (ll & l & sz & new & o & sz' & l' & st' & h' & _ & _ & _ & _ & _ & -> & _).
  exists o. by destruct o.
Qed.

Lemma incr_small c : 0 ≤ c → c + 1 < 2 ^ 31 → incr c = c + 1.
Proof. intros H0 H1. unfold incr, to_int. rewrite Z.mod_small; lia. Qed.

Lemma incr_ne c : incr c ≠ c.
Proof.
  unfold incr, to_int. intros Heq.
  pose proof (Z.div_mod (c + 1 + 2 ^ 31) (2 ^ 32) ltac:(lia)).
  pose proof (Z.mod_pos_bound (c + 1 + 2 ^ 31) (2 ^ 32) ltac:(lia)). lia.
Qed.

Lemma total_accesses_nonneg tr : 0 ≤ total_accesses tr.
Proof. induction tr as [|[[] a] tr IH]; simpl; lia. Qed.

(** One call on counters that are not about to wrap. *)
Lemma accessData_counts_exact A vs vE vb g a g' :
  reachable A vs vE vb g →
  accessData A a g = Ok g' →
  0 ≤ hit_count g → 0 ≤ eviction_count g ≤ miss_count g →
  hit_count g + miss_count g + 1 < 2 ^ 31 →
  (hit_count g' = hit_count g + 1 ∧ miss_count g' = miss_count g ∧
   eviction_count g' = eviction_count g) ∨
  (hit_count g' = hit_count g ∧ miss_count g' = miss_count g + 1 ∧
   (eviction_count g' = eviction_count g ∨
    eviction_count g' = eviction_count g + 1)).
Proof.
  intros Hreach Hstep Hh He Hb.
  destruct (accessData_counts A vs vE vb g a g' Hreach Hstep) as [o Ho].
  injection Ho as -> -> ->.
  destruct o; simpl; rewrite ?incr_small by lia; lia.
Qed.

Lemma replayTrace_counts A vs vE vb tr : ∀ g g',
  reachable A vs vE vb g →
  0 ≤ hit_count g → 0 ≤ eviction_count g ≤ miss_count g →
  hit_count g + miss_count g + total_accesses tr < 2 ^ 31 →
  replayTrace A tr g = Ok g' →
  reachable A vs vE vb g' ∧
  0 ≤ hit_count g' ∧ 0 ≤ eviction_count g' ≤ miss_count g' ∧
  hit_count g' + miss_count g' =
    hit_count g + miss_count g + total_accesses tr.
Proof.
  induction tr as [|[o a] tr IH]; intros g g' Hreach Hh He Hb Hrun;
    simpl in Hrun, Hb.
  - injection Hrun as <-. simpl. split; [done|lia].
  - pose proof (total_accesses_nonneg tr) as Hn.
    destruct o; simpl in Hb |- *.
    + destruct (IH g g' Hreach Hh He ltac:(lia) Hrun) as (? & ? & ? & ?).
      split; [done|lia].
    + destruct (accessData A a g) as [g1|] eqn:H1; [|done]. simpl in Hrun.
      pose proof (accessData_counts_exact A vs vE vb g a g1 Hreach H1 Hh He
                    ltac:(lia)) as Hc.
      destruct (IH g1 g' (reach_step _ _ _ _ _ _ _ Hreach H1)
                  ltac:(lia) ltac:(lia) ltac:(lia) Hrun) as (? & ? & ? & ?).
      split; [done|lia].
    + destruct (accessData A a g) as [g1|] eqn:H1; [|done]. simpl in Hrun.
      pose proof (accessData_counts_exact A vs vE vb g a g1 Hreach H1 Hh He
                    ltac:(lia)) as Hc.
      destruct (IH g1 g' (reach_step _ _ _ _ _ _ _ Hreach H1)
                  ltac:(lia) ltac:(lia) ltac:(lia) Hrun) as (? & ? & ? & ?).
      split; [done|lia].
    + destruct (accessData A a g) as [g1|] eqn:H1; [|done]. simpl in Hrun.
      destruct (accessData A a g1) as [g2|] eqn:H2; [|done]. simpl in Hrun.
      pose proof (reach_step _ _ _ _ _ _ _ Hreach H1) as Hreach1.
      pose proof (accessData_counts_exact A vs vE vb g a g1 Hreach H1 Hh He
                    ltac:(lia)) as Hc1.
      pose proof (accessData_counts_exact A vs vE vb g1 a g2 Hreach1 H2
                    ltac:(lia) ltac:(lia) ltac:(lia)) as Hc2.
      destruct (IH g2 g' (reach_step _ _ _ _ _ _ _ Hreach1 H2)
                  ltac:(lia) ltac:(lia) ltac:(lia) Hrun) as (? & ? & ? & ?).
      split; [done|lia].
Qed.

(** Claim C7 (counter conservation), for traces of fewer than 2^31
    accesses.  After such a trace has been replayed from the constructed
    cache, [hit_count + miss_count] is the number of cache accesses of the
    trace (1 for an [L] or [S] line, 2 for an [M] line, 0 for an [I] line)
    and [eviction_count] is at most [miss_count]; and a further call that
    returns, when it is not access number 2^31, adds one to exactly one of
    [hit_count] and [miss_count], adding to [eviction_count] at most one
    and only on a miss. *)
Theorem counter_conservation A vs vE vb tr g :
  total_accesses tr < 2 ^ 31 →
  replayTrace A tr (init_cache A vs vE vb) = Ok g →
  hit_count g + miss_count g = total_accesses tr ∧
  eviction_count g ≤ miss_count g ∧
  ∀ a g', total_accesses tr + 1 < 2 ^ 31 → accessData A a g = Ok g' →
    (hit_count g' = hit_count g + 1 ∧ miss_count g' = miss_count g ∧
     eviction_count g' = eviction_count g) ∨
    (hit_count g' = hit_count g ∧ miss_count g' = miss_count g + 1 ∧
     (eviction_count g' = eviction_count g ∨
      eviction_count g' = eviction_count g + 1)).
Proof.
  intros Hlen Hrun.
  assert (hit_count (init_cache A vs vE vb) = 0 ∧
          miss_count (init_cache A vs vE vb) = 0 ∧
          eviction_count (init_cache A vs vE vb) = 0) as (H1 & H2 & H3).
  { unfold init_cache. by destruct (init_sets _ _ _ _). }
  destruct (replayTrace_counts A vs vE vb tr _ g (reach_init _ _ _ _)
              ltac:(lia) ltac:(lia) ltac:(lia) Hrun)
    as (Hreach & Hh & He & Hsum).
  rewrite H1, H2 in Hsum.
  split; [lia|]. split; [lia|].
  intros a g' Hnext Hstep.
  apply (accessData_counts_exact A vs vE vb g a g' Hreach Hstep); lia.
Qed.

Lemma accessData_abs A a g ll :
  rep ll g →
  match accessData A a g with
  | Ok g' =>
      ∃ o sz' l',
        abs_access (s g) (b g) (E g) (forget <$> ll) (size g) a =
          Ok (o, sz', forget l') ∧
        rep (<[Z.to_nat (decode_set_index (s g) (b g) a) := l']> ll) g' ∧
        size g' = <[Z.to_nat (decode_set_index (s g) (b g) a) := sz']> (size g) ∧
        summary g' = summary (count o g) ∧
        s g' = s g ∧ b g' = b g ∧ E g' = E g
  | Fault f =>
      abs_access (s g) (b g) (E g) (forget <$> ll) (size g) a = Fault f
  end.
Proof.
  intros Hrep. unfold abs_access.
  destruct (accessData_rep A a g ll Hrep)
    as [[Hout ->]|(l & sz & Hpos & Hl & Hsz &
                [[Hnone ->]|(new & o & sz' & l' & st' & h' & Hacc & -> & Hrep')])].
  - destruct (_ <? 0) eqn:Hneg; [done|]. apply Z.ltb_ge in Hneg.
    rewrite list_lookup_fmap.
    rewrite (proj2 (lookup_ge_None ll _)); [done|]. lia.
  - destruct (_ <? 0) eqn:Hneg; [lia|].
    rewrite list_lookup_fmap, Hl, Hsz. simpl. by rewrite Hnone.
  - exists o, sz', l'.
    destruct (_ <? 0) eqn:Hneg; [lia|].
    rewrite list_lookup_fmap, Hl, Hsz. simpl.
    rewrite (set_access_forget _ _ new), Hacc.
    split; [done|]. split; [done|]. by destruct o.
Qed.

Lemma sim_accessData A1 A2 a g1 g2 :
  sim g1 g2 → agree sim (accessData A1 a g1) (accessData A2 a g2).
Proof.
  intros (ll1 & ll2 & Hr1 & Hr2 & Hll & Hsz & Hs & Hb & HE & Hsum).
  pose proof (accessData_abs A1 a g1 ll1 Hr1) as H1.
  pose proof (accessData_abs A2 a g2 ll2 Hr2) as H2.
  rewrite <- Hll, <- Hsz, <- Hs, <- Hb, <- HE in H2.
  unfold agree.
  destruct (accessData A1 a g1) as [g1'|f1], (accessData A2 a g2) as [g2'|f2].
  - destruct H1 as (o1 & sz1 & l1 & Ha1 & Hr1' & Hz1 & Hc1 & Hs1 & Hb1 & HE1).
    destruct H2 as (o2 & sz2 & l2 & Ha2 & Hr2' & Hz2 & Hc2 & Hs2 & Hb2 & HE2).
    rewrite Ha1 in Ha2. injection Ha2 as <- <- Hl.
    eexists _, _. split; [done|]. split; [done|].
    split; [by rewrite !list_fmap_insert, Hll, Hl|].
    split; [congruence|]. split; [congruence|]. split; [congruence|].
    split; [congruence|].
    rewrite Hc1, Hc2. unfold summary in *. injection Hsum as H1 H2 H3.
    destruct o1; simpl; by rewrite H1, H2, H3.
  - destruct H1 as (o1 & sz1 & l1 & Ha1 & _). congruence.
  - destruct H2 as (o2 & sz2 & l2 & Ha2 & _). congruence.
  - congruence.
Qed.

Lemma sim_replayTrace A1 A2 tr : ∀ g1 g2,
  sim g1 g2 → agree sim (replayTrace A1 tr g1) (replayTrace A2 tr g2).
Proof.
  induction tr as [|[o a] tr IH]; intros g1 g2 Hsim; simpl; [done|].
  destruct o.
  - by apply IH.
  - pose proof (sim_accessData A1 A2 a g1 g2 Hsim) as Hstep.
    destruct (accessData A1 a g1), (accessData A2 a g2); try done.
    by apply IH.
  - pose proof (sim_accessData A1 A2 a g1 g2 Hsim) as Hstep.
    destruct (accessData A1 a g1), (accessData A2 a g2); try done.
    by apply IH.
  - pose proof (sim_accessData A1 A2 a g1 g2 Hsim) as Hstep.
    destruct (accessData A1 a g1) as [g1'|], (accessData A2 a g2) as [g2'|];
      try done. simpl in *.
    pose proof (sim_accessData A1 A2 a g1' g2' Hstep) as Hstep'.
    destruct (accessData A1 a g1'), (accessData A2 a g2'); try done.
    by apply IH.
Qed.

Lemma forget_sentinels (ll : list (list (addr * cell))) :
  Forall (λ l, ∃ a, l = [(a, sentinel)]) ll →
  forget <$> ll = replicate (length ll) [(tt, sentinel)].
Proof.
  induction 1 as [|l ll [a ->] _ IH]; [done|]. rewrite fmap_cons, IH. done.
Qed.

Lemma sim_init A1 A2 vs vE vb :
  sim (init_cache A1 vs vE vb) (init_cache A2 vs vE vb).
Proof.
  destruct (init_cache_rep A1 vs vE vb) as (ll1 & Hr1 & Hlen1 & Hall1).
  destruct (init_cache_rep A2 vs vE vb) as (ll2 & Hr2 & Hlen2 & Hall2).
  exists ll1, ll2. split; [done|]. split; [done|].
  split.
  { rewrite (forget_sentinels ll1 Hall1), (forget_sentinels ll2 Hall2).
    by rewrite Hlen1, Hlen2. }
  unfold init_cache.
  by destruct (init_sets A1 _ _ _), (init_sets A2 _ _ _).
Qed.

(** Claim C9 (determinism).  The result of a simulation, the three counters
    or the fault that ends it, depends on the configuration and on the trace
    only: not on the addresses [malloc] hands out, not on what fresh blocks
    hold before they are written, and not on what the unwritten [LRU_tail]
    fields hold.  Two runs of the same trace on freshly constructed caches
    agree. *)
Theorem simulate_deterministic A1 A2 vs vE vb tr :
  simulate A1 vs vE vb tr = simulate A2 vs vE vb tr.
Proof.
  unfold simulate.
  pose proof (sim_replayTrace A1 A2 tr _ _ (sim_init A1 A2 vs vE vb)) as Hrun.
  destruct (replayTrace A1 tr _) as [g1|f1], (replayTrace A2 tr _) as [g2|f2];
    simpl in *; try done.
  - destruct Hrun as (_ & _ & _ & _ & _ & _ & _ & _ & _ & ->). done.
  - by rewrite Hrun.
Qed.

Lemma set_access_head {X} vE t (new : X) sz c rest :
  ctag c.2 = t → cvalid c.2 = 1 →
  set_access vE t new sz (c :: rest) = Some (Hit, sz, c :: rest).
Proof.
  intros Ht Hv. unfold set_access. rewrite find_split_head by done.
  apply Z.eqb_eq in Ht, Hv. rewrite Ht, Hv. simpl.
  unfold list_hit. simpl. by rewrite andb_false_r.
Qed.

Lemma set_access_again {X} vE t (new new' : X) sz l o sz' l' :
  set_access vE t new sz l = Some (o, sz', l') →
  set_access vE t new' sz' l' = Some (Hit, sz', l').
Proof.
  unfold set_access at 1.
  destruct (find_split t l) as [[[l1 c] l2]|] eqn:Hfs; [|done].
  destruct (find_split_spec _ _ _ _ _ Hfs) as (-> & Hl1 & Hc).
  destruct ((ctag c.2 =? t) && (cvalid c.2 =? 1)) eqn:Hhit.
  - intros [= <- <- <-].
    pose proof Hhit as Hhit'.
    apply andb_true_iff in Hhit' as [Ht%Z.eqb_eq Hv%Z.eqb_eq].
    unfold list_hit. destruct (_ && _ && _) eqn:Hmove.
    + destruct l2; by apply set_access_head.
    + unfold set_access. rewrite Hfs, Hhit. unfold list_hit. by rewrite Hmove.
  - unfold list_miss. destruct (sz =? 0).
    + intros [= <- <- <-]. by apply set_access_head.
    + destruct (vE <=? sz).
      * destruct (list_evict _); [|done]. intros [= <- <- <-].
        by apply set_access_head.
      * intros [= <- <- <-]. by apply set_access_head.
Qed.

(** When the first access of an [M] line returns, the second one returns
    too, and is a hit. *)
Lemma modify_second_access_hits A vs vE vb g a g1 :
  reachable A vs vE vb g →
  accessData A a g = Ok g1 →
  ∃ g2, accessData A a g1 = Ok g2 ∧ summary g2 = summary (count Hit g1).
Proof.
  intros Hreach Hstep.
  destruct (accessData_reachable A vs vE vb g a g1 Hreach Hstep)
    as (ll & l & sz & new & o & sz' & l' & st' & h' &
        Hrep & Hpos & Hl & Hsz & Hacc & Hg1 & Hrep').
  assert (s g1 = s g ∧ b g1 = b g ∧ E g1 = E g ∧
          size g1 = <[Z.to_nat (decode_set_index (s g) (b g) a) := sz']> (size g))
    as (Hs & Hb & HE & Hsize) by (rewrite Hg1; by destruct o).
  pose proof (accessData_abs A a g1 _ Hrep') as Habs.
  unfold abs_access in Habs. rewrite Hs, Hb, HE, Hsize in Habs.
  destruct (_ <? 0) eqn:Hneg; [lia|].
  rewrite list_lookup_fmap in Habs.
  rewrite !list_lookup_insert_eq in Habs
    by (by eapply lookup_lt_Some).
  simpl in Habs.
  rewrite (set_access_forget _ _ new) in Habs.
  rewrite (set_access_again _ _ _ _ _ _ _ _ _ Hacc) in Habs.
  destruct (accessData A a g1) as [g2|f]; [|done].
  destruct Habs as (o2 & sz2 & l2 & [= <- _ _] & _ & _ & Hsum & _).
  by exists g2.
Qed.

(** ** Address decoding *)

Lemma to_int_small z : - 2 ^ 31 ≤ z < 2 ^ 31 → to_int z = z.
Proof.
  intros Hz. unfold to_int. rewrite Z.mod_small; lia.
Qed.

Lemma to_ull_small z : 0 ≤ z < 2 ^ 64 → to_ull z = z.
Proof.
  intros Hz. unfold to_ull. by rewrite Z.mod_small.
Qed.

Lemma shr64_small x n : 0 ≤ n < 64 → shr64 x n = Z.shiftr x n.
Proof. intros Hn. unfold shr64. by rewrite Z.mod_small. Qed.

(** Line 120 for at most 30 index bits: the set index is the field of [vs]
    bits above the [vb] offset bits, and lies inside the [sets] array. *)
Lemma decode_set_index_spec vs vb a :
  0 ≤ vs ≤ 30 →
  decode_set_index vs vb a = Z.land (shr64 a vb) (2 ^ vs - 1) ∧
  0 ≤ decode_set_index vs vb a < 2 ^ vs.
Proof.
  intros Hvs. unfold decode_set_index, shl32.
  assert (0 < 2 ^ vs ≤ 2 ^ 30) as Hpow.
  { split; [apply Z.pow_pos_nonneg; lia|apply Z.pow_le_mono_r; lia]. }
  rewrite (Z.mod_small vs) by lia.
  rewrite Z.shiftl_1_l.
  rewrite (to_int_small (2 ^ vs)) by lia.
  rewrite (to_int_small (2 ^ vs - 1)) by lia.
  rewrite to_ull_small by lia.
  assert (2 ^ vs - 1 = Z.ones vs) as -> by (rewrite Z.ones_equiv; lia).
  rewrite Z.land_ones by lia.
  pose proof (Z.mod_pos_bound (shr64 a vb) (2 ^ vs)) as Hmod.
  rewrite to_int_small by lia. lia.
Qed.

(** Two addresses get the same tag exactly when the low 32 bits of their
    shifted values agree. *)
Lemma decode_tag_eq vs vb a1 a2 :
  decode_tag vs vb a1 = decode_tag vs vb a2 ↔
  shr64 a1 (vs + vb) mod 2 ^ 32 = shr64 a2 (vs + vb) mod 2 ^ 32.
Proof.
  unfold decode_tag, to_int.
  set (x1 := shr64 a1 (vs + vb)). set (x2 := shr64 a2 (vs + vb)).
  split; intros Heq.
  - assert ((x1 + 2 ^ 31) mod 2 ^ 32 = (x2 + 2 ^ 31) mod 2 ^ 32) as Hm by lia.
    rewrite <- (Z.add_simpl_r x1 (2 ^ 31)), <- (Z.add_simpl_r x2 (2 ^ 31)).
    rewrite (Zminus_mod (x1 + _)), (Zminus_mod (x2 + _)). by rewrite Hm.
  - rewrite (Zplus_mod x1), (Zplus_mod x2). by rewrite Heq.
Qed.

Lemma replayTrace_reachable A vs vE vb tr g g' :
  reachable A vs vE vb g → replayTrace A tr g = Ok g' → reachable A vs vE vb g'.
Proof.
  revert g. induction tr as [|[o a] tr IH]; intros g Hreach Hrun;
    simpl in Hrun.
  - by injection Hrun as <-.
  - destruct o.
    + by eapply IH.
    + destruct (accessData A a g) as [g1|] eqn:H1; [|done].
      eapply IH; [|done]. by eapply reach_step.
    + destruct (accessData A a g) as [g1|] eqn:H1; [|done].
      eapply IH; [|done]. by eapply reach_step.
    + destruct (accessData A a g) as [g1|] eqn:H1; [|done]. simpl in Hrun.
      destruct (accessData A a g1) as [g2|] eqn:H2; [|done].
      eapply IH; [|done]. eapply reach_step; [|done]. by eapply reach_step.
Qed.

(** ** Associativity 2: every access returns *)

Lemma set_inv_two {X} sz (l : list (X * cell)) :
  set_inv 2 sz l →
  (∃ x, l = [x] ∧ (sz = 0 ∨ sz = 1)) ∨ (∃ x y, l = [x; y] ∧ sz = 2).
Proof.
  intros [[-> (x & -> & _)]|(Hlen & Hb & _)].
  - left. exists x. auto.
  - destruct l as [|x [|y [|z l]]]; simpl in Hlen; try lia.
    + left. exists x. split; [done|]. right. lia.
    + right. exists x, y. split; [done|]. lia.
Qed.

Lemma set_access_two {X} t (new : X) sz l :
  set_inv 2 sz l → well_linked l →
  ∃ o sz' l', set_access 2 t new sz l = Some (o, sz', l') ∧ well_linked l'.
Proof.
  intros Hinv Hwl. unfold set_access, list_miss, list_hit.
  destruct (set_inv_two sz l Hinv) as [(x & -> & Hsz)|(x & y & -> & ->)].
  - simpl. destruct ((ctag x.2 =? t) && (cvalid x.2 =? 1)).
    + eexists _, _, _. split; [done|]. rewrite andb_false_r. done.
    + destruct Hsz as [-> | ->]; simpl.
      * eexists _, _, _. split; [done|]. by constructor.
      * eexists _, _, _. split; [done|]. by repeat constructor.
  - apply Forall_cons in Hwl as [Hy _]. simpl.
    destruct (ctag x.2 =? t) eqn:Hx; simpl; rewrite ?Hx; simpl.
    + destruct (cvalid x.2 =? 1); simpl.
      * rewrite andb_false_r. eexists _, _, _. split; [done|].
        by repeat constructor.
      * unfold list_evict. simpl. rewrite Hy. simpl.
        eexists _, _, _. split; [done|]. by repeat constructor.
    + destruct ((ctag y.2 =? t) && (cvalid y.2 =? 1)); simpl.
      * rewrite Hy. simpl. eexists _, _, _. split; [done|].
        by repeat constructor.
      * unfold list_evict. simpl. rewrite Hy. simpl.
        eexists _, _, _. split; [done|]. by repeat constructor.
Qed.

Lemma reachable_two_way A vs vb g :
  reachable A vs 2 vb g →
  ∃ ll, rep ll g ∧ s g = vs ∧ E g = 2 ∧ b g = vb ∧
        length ll = Z.to_nat (num_sets_of vs) ∧
        sets_inv 2 ll (size g) ∧ Forall well_linked ll.
Proof.
  induction 1 as [|g a g' Hreach IH Hstep].
  - destruct (init_cache_rep A vs 2 vb) as (ll & Hrep & Hlen & Hall).
    pose proof (reachable_rep A vs 2 vb _ (reach_init A vs 2 vb))
      as (ll0 & _ & Hs & HE & Hb & _).
    exists ll. split; [done|]. split; [done|]. split; [done|].
    split; [done|]. split; [done|]. split.
    + intros i li sz Hi Hsz.
      destruct (proj1 (Forall_forall _ _) Hall li) as [a ->].
      { by eapply list_elem_of_lookup_2. }
      left. split; [|by eexists].
      unfold init_cache in Hsz. destruct (init_sets _ _ _ _).
      simpl in Hsz. by apply lookup_replicate in Hsz as [-> _].
    + eapply Forall_impl; [done|]. intros l [a ->]. constructor.
  - destruct IH as (ll & Hrep & Hs & HE & Hb & Hlen & Hinv & Hwl).
    destruct (accessData_rep A a g ll Hrep)
      as [[_ Hf]|(l & sz & Hpos & Hl & Hsz &
                  [[_ Hf]|(new & o & sz' & l' & st' & h' & Hacc & Hex & Hrep')])];
      [congruence|congruence|].
    rewrite Hex in Hstep. injection Hstep as <-.
    set (i := Z.to_nat (decode_set_index (s g) (b g) a)) in *.
    assert (well_linked l' ∧ set_inv 2 sz' l') as [Hwl' Hinv'].
    { rewrite HE in Hacc. split.
      - destruct (set_access_two (decode_tag (s g) (b g) a) new sz l)
          as (o2 & sz2 & l2 & Hacc2 & Hwl2).
        + by eapply Hinv.
        + eapply (proj1 (Forall_forall _ _) Hwl). by eapply list_elem_of_lookup_2.
        + congruence.
      - eapply set_access_inv; [|by eapply Hinv|done]. lia. }
    eexists. split; [done|].
    split; [by destruct o|]. split; [by destruct o|]. split; [by destruct o|].
    split; [by rewrite length_insert|]. split.
    + intros j lj szj Hj Hszj.
      assert (size (put i st' sz' h'
                (count o (with_set_index (decode_set_index (s g) (b g) a) g)))
              = <[i := sz']> (size g)) as Hsize by by destruct o.
      rewrite Hsize in Hszj. clear Hsize.
      destruct (decide (j = i)) as [->|Hne].
      * rewrite list_lookup_insert_eq in Hj by by eapply lookup_lt_Some.
        rewrite list_lookup_insert_eq in Hszj by by eapply lookup_lt_Some.
        by injection Hj as <-; injection Hszj as <-.
      * rewrite list_lookup_insert_ne in Hj by done.
        rewrite list_lookup_insert_ne in Hszj by done.
        by eapply Hinv.
    + apply Forall_insert; done.
Qed.

Lemma accessData_two_way A vs vb g a :
  0 ≤ vs ≤ 30 →
  reachable A vs 2 vb g →
  ∃ g', accessData A a g = Ok g'.
Proof.
  intros Hvs Hreach.
  destruct (reachable_two_way A vs vb g Hreach)
    as (ll & Hrep & Hs & HE & Hb & Hlen & Hinv & Hwl).
  destruct (decode_set_index_spec vs vb a Hvs) as [_ Hidx].
  destruct (accessData_rep A a g ll Hrep)
    as [[Hout _]|(l & sz & Hpos & Hl & Hsz &
                [[Hnone _]|(new & o & sz' & l' & st' & h' & _ & Hex & _)])].
  - exfalso. apply Hout. rewrite Hs, Hb, Hlen, num_sets_of_small by done. lia.
  - exfalso. rewrite (set_access_forget _ _ 1%positive), HE in Hnone.
    destruct (set_access_two (decode_tag (s g) (b g) a) 1%positive sz l)
      as (o2 & sz2 & l2 & Hacc2 & _).
    + by eapply Hinv.
    + eapply (proj1 (Forall_forall _ _) Hwl). by eapply list_elem_of_lookup_2.
    + by rewrite Hacc2 in Hnone.
  - by eexists.
Qed.

(** With two lines per set and at most 30 index bits, every trace is
    replayed to the end. *)
Lemma replayTrace_two_way A vs vb tr : ∀ g,
  0 ≤ vs ≤ 30 →
  reachable A vs 2 vb g →
  ∃ g', replayTrace A tr g = Ok g'.
Proof.
  induction tr as [|[o a] tr IH]; intros g Hvs Hreach; simpl; [by eexists|].
  destruct o.
  - by apply IH.
  - destruct (accessData_two_way A vs vb g a Hvs Hreach) as [g1 H1].
    rewrite H1. simpl. apply IH; [done|]. by eapply reach_step.
  - destruct (accessData_two_way A vs vb g a Hvs Hreach) as [g1 H1].
    rewrite H1. simpl. apply IH; [done|]. by eapply reach_step.
  - destruct (accessData_two_way A vs vb g a Hvs Hreach) as [g1 H1].
    rewrite H1. simpl.
    pose proof (reach_step _ _ _ _ _ _ _ Hreach H1) as Hreach1.
    destruct (accessData_two_way A vs vb g1 a Hvs Hreach1) as [g2 H2].
    rewrite H2. simpl. apply IH; [done|]. by eapply reach_step.
Qed.

(** ** Runs on which the list order, the eviction or the call itself go wrong

    They are run with the allocator [bump]; by [sim_replayTrace] any other
    allocator gives the same counters and the same faults. *)

(** Claim C1 (recency order after a hit) fails on the code.  With s=1, E=3,
    b=1, the accesses 4, 8, 12, 8 leave set 0 as the list of tags 2, 3, 1.
    The access to address 12 that follows is a hit on tag 3, and the list is
    still 2, 3, 1 afterwards: the block that was hit is not first.  Lines
    140-144, which moved tag 2 from the middle to the front, left the [prev]
    of the former head (tag 3) at NULL, and line 136 takes a block with a
    NULL [prev] for the head.  Lines 148-153 do set that [prev]. *)
Theorem hit_on_former_head_not_promoted :
  args_ok 1 3 1 = true ∧
  reachable bump 1 3 1 three_way ∧
  live_tags three_way 0 = Some [2; 3; 1] ∧
  decode_set_index 1 1 12 = 0 ∧ decode_tag 1 1 12 = 3 ∧
  ∃ g', accessData bump 12 three_way = Ok g' ∧
        summary g' = summary (count Hit three_way) ∧
        live_tags g' 0 = Some [2; 3; 1].
Proof.
  split; [done|]. split.
  { eapply (replayTrace_reachable bump 1 3 1
              (map (λ a, (Load, a)) [4; 8; 12; 8])); [apply reach_init|].
    vm_compute. reflexivity. }
  split; [by vm_compute|]. split; [done|]. split; [done|].
  eexists. split; [vm_compute; reflexivity|]. split; by vm_compute.
Qed.

(** Claim C5 (the evicted block is the least recently used) fails on the
    code.  With s=1, E=3, b=1, after the accesses to tags 1, 2, 3, 2, 1, 3, 2
    set 0 is the list 2, 1, 3 although tag 1 (last used at position 4) is
    older than tag 3 (position 5).  The miss on tag 4 that follows removes
    tag 3 and keeps tag 1.  The order is wrong since the hit on tag 3 at
    position 5 did not promote it: the defect of claim C1. *)
Theorem eviction_not_least_recent :
  args_ok 1 3 1 = true ∧
  reachable bump 1 3 1 lru_demo ∧
  live_tags lru_demo 0 = Some [2; 1; 3] ∧
  last_use 1 1 1 [4; 8; 12; 8; 4; 12; 8] 0 = Some 4%nat ∧
  last_use 1 1 3 [4; 8; 12; 8; 4; 12; 8] 0 = Some 5%nat ∧
  last_use 1 1 2 [4; 8; 12; 8; 4; 12; 8] 0 = Some 6%nat ∧
  decode_set_index 1 1 16 = 0 ∧ decode_tag 1 1 16 = 4 ∧
  ∃ g', accessData bump 16 lru_demo = Ok g' ∧
        summary g' = summary (count MissEvict lru_demo) ∧
        live_tags g' 0 = Some [4; 2; 1].
Proof.
  split; [done|]. split.
  { eapply (replayTrace_reachable bump 1 3 1
              (map (λ a, (Load, a)) [4; 8; 12; 8; 4; 12; 8]));
      [apply reach_init|].
    vm_compute. reflexivity. }
  split; [by vm_compute|]. do 5 (split; [done|]).
  eexists. split; [vm_compute; reflexivity|]. split; by vm_compute.
Qed.

(** Claim C2 (no fault from a state with at most E valid blocks per set and
    no duplicate tags) fails on the code.  With E=1, after one access set 0
    holds one valid block; the next access to another tag of that set runs
    lines 173-176, where [LRU_tail->prev] is NULL, and line 176 writes
    through it.  With E=3 the same lines fault on a reachable full set whose
    last block was once the head while a middle block was promoted. *)
Theorem eviction_faults_when_tail_prev_is_null :
  (args_ok 1 1 1 = true ∧
   reachable bump 1 1 1 one_way ∧ E one_way = 1 ∧
   live_tags one_way 0 = Some [0] ∧ live_tags one_way 1 = Some [] ∧
   accessData bump 4 one_way = Fault NullDeref) ∧
  (args_ok 1 3 1 = true ∧
   reachable bump 1 3 1 stale_tail ∧ E stale_tail = 3 ∧
   live_tags stale_tail 0 = Some [4; 2; 1] ∧ live_tags stale_tail 1 = Some [] ∧
   accessData bump 12 stale_tail = Fault NullDeref).
Proof.
  split.
  - split; [done|]. split.
    { eapply (replayTrace_reachable bump 1 1 1 (map (λ a, (Load, a)) [0]));
        [apply reach_init|].
      vm_compute. reflexivity. }
    repeat split; by vm_compute.
  - split; [done|]. split.
    { eapply (replayTrace_reachable bump 1 3 1
                (map (λ a, (Load, a)) [4; 8; 12; 8; 4; 12; 8; 16]));
        [apply reach_init|].
      vm_compute. reflexivity. }
    repeat split; by vm_compute.
Qed.

(** Claim C3 (scenario 2: s=0, E=1, b=0, addresses 0 then 16 give hits=0,
    misses=2, evictions=1) fails on the code.  The first access is a miss;
    the second reaches the eviction of lines 173-176 with a one-block list
    and faults on the NULL [LRU_tail].  [main] refuses s=0 and b=0; with
    s=1, E=1, b=1, which it accepts, addresses 0 and 64 fault in the same
    way. *)
Theorem scenario_2_faults :
  simulate bump 0 1 0 [(Load, 0)] = Ok (0, 1, 0) ∧
  simulate bump 0 1 0 [(Load, 0); (Load, 16)] = Fault NullDeref ∧
  main bump 0 1 0 [(Load, 0); (Load, 16)] = None ∧
  decode_set_index 1 1 0 = decode_set_index 1 1 64 ∧
  decode_tag 1 1 0 ≠ decode_tag 1 1 64 ∧
  main bump 1 1 1 [(Load, 0)] = Some (Ok (0, 1, 0)) ∧
  main bump 1 1 1 [(Load, 0); (Load, 64)] = Some (Fault NullDeref).
Proof.
  repeat split; by vm_compute.
Qed.

(** Claim C4 (the tag is the full-width [addr >> (s + b)]) fails on the
    code.  Line 121 stores the shifted address in an [int].  With s=1, E=2,
    b=1 the addresses 0 and 2^34 decode to set 0 and have shifted values 0
    and 2^32, which differ at bit 32; both get tag 0, and the access to 2^34
    after the access to 0 is counted as a hit. *)
Theorem tag_truncated_to_int :
  args_ok 1 2 1 = true ∧
  0 ≤ 2 ^ 34 < 2 ^ 64 ∧
  Z.shiftr 0 (1 + 1) = 0 ∧ Z.shiftr (2 ^ 34) (1 + 1) = 2 ^ 32 ∧
  decode_set_index 1 1 0 = 0 ∧ decode_set_index 1 1 (2 ^ 34) = 0 ∧
  decode_tag 1 1 0 = 0 ∧ decode_tag 1 1 (2 ^ 34) = 0 ∧
  simulate bump 1 2 1 [(Load, 0); (Load, 2 ^ 34)] = Ok (1, 1, 0).
Proof.
  split; [done|]. split; [lia|]. repeat split; by vm_compute.
Qed.

(** Claim C8 (an [M] line gives hit, hit or miss, hit for every E >= 1)
    fails on the code.  With s=1, E=1, b=1 and set 0 holding tag 0, the [M]
    line on address 4 (set 0, tag 1) faults in its first access, in the
    eviction of lines 173-176.  There is no second access. *)
Theorem modify_faults_in_full_one_way_set :
  args_ok 1 1 1 = true ∧
  reachable bump 1 1 1 one_way ∧ E one_way = 1 ∧
  live_tags one_way 0 = Some [0] ∧
  decode_set_index 1 1 4 = 0 ∧ decode_tag 1 1 4 = 1 ∧
  accessData bump 4 one_way = Fault NullDeref ∧
  replayTrace bump [(Modify, 4)] one_way = Fault NullDeref.
Proof.
  split; [done|]. split.
  { eapply (replayTrace_reachable bump 1 1 1 (map (λ a, (Load, a)) [0]));
      [apply reach_init|].
    vm_compute. reflexivity. }
  repeat split; by vm_compute.
Qed.

(** The invariant of claim C6 on set 0 of a two-way cache after an
    eviction. *)
Lemma reachable_sets_bounded_witness :
  ∃ tags, live_tags two_way 0 = Some tags ∧
          Z.of_nat (length tags) ≤ 2 ∧ NoDup tags.
Proof.
  apply (reachable_sets_bounded bump 1 2 1 two_way 0); [lia| |vm_compute; lia].
  eapply (replayTrace_reachable bump 1 2 1
            (map (λ a, (Load, a)) [0; 64; 2; 128])); [apply reach_init|].
  vm_compute. reflexivity.
Defined.

(** The counters of claim C7 after a trace with every kind of line. *)
Lemma counter_conservation_witness :
  hit_count mixed + miss_count mixed = total_accesses mixed_trace ∧
  eviction_count mixed ≤ miss_count mixed ∧
  ∀ a g', total_accesses mixed_trace + 1 < 2 ^ 31 →
    accessData bump a mixed = Ok g' →
    (hit_count g' = hit_count mixed + 1 ∧ miss_count g' = miss_count mixed ∧
     eviction_count g' = eviction_count mixed) ∨
    (hit_count g' = hit_count mixed ∧ miss_count g' = miss_count mixed + 1 ∧
     (eviction_count g' = eviction_count mixed ∨
      eviction_count g' = eviction_count mixed + 1)).
Proof.
  apply (counter_conservation bump 1 2 1 mixed_trace mixed);
    vm_compute; reflexivity.
Defined.

(** Claim C10 as it is stated (only [sets[i]], [size[i]] and the three
    counters may change) fails on the code.  The call of accessData on
    address 2 of a new cache changes something else than set 1, [size[1]]
    and the counters: [set_index], which was 0, is 1 afterwards. *)
Lemma accessData_writes_set_index :
  accessData bump 2 (init_cache bump 1 2 1) =
    Ok (state_of (accessData bump 2 (init_cache bump 1 2 1))) ∧
  Z.to_nat (decode_set_index 1 1 2) = 1%nat ∧
  set_index (init_cache bump 1 2 1) = 0 ∧
  set_index (state_of (accessData bump 2 (init_cache bump 1 2 1))) = 1 ∧
  ¬ only_set_and_counters_change 1 (init_cache bump 1 2 1)
      (state_of (accessData bump 2 (init_cache bump 1 2 1))).
Proof.
  split; [vm_compute; reflexivity|]. split; [vm_compute; reflexivity|].
  split; [vm_compute; reflexivity|]. split; [vm_compute; reflexivity|].
  intros (_ & _ & _ & Hidx & _). vm_compute in Hidx. discriminate.
Qed.

(** The frame of claim C10: an access to set 0 (address 256) leaves set 1
    as it was. *)
Lemma accessData_frame_witness :
  sets (c1 (state_of (accessData bump 256 two_way))) !! 1%nat =
    sets (c1 two_way) !! 1%nat ∧
  size (state_of (accessData bump 256 two_way)) !! 1%nat =
    size two_way !! 1%nat ∧
  set_blocks (state_of (accessData bump 256 two_way)) 1 = set_blocks two_way 1 ∧
  s (state_of (accessData bump 256 two_way)) = s two_way ∧
  b (state_of (accessData bump 256 two_way)) = b two_way ∧
  E (state_of (accessData bump 256 two_way)) = E two_way ∧
  set_index (state_of (accessData bump 256 two_way)) =
    decode_set_index (s two_way) (b two_way) 256.
Proof.
  apply (accessData_frame bump 1 2 1 two_way 256).
  - eapply (replayTrace_reachable bump 1 2 1
              (map (λ a, (Load, a)) [0; 64; 2; 128])); [apply reach_init|].
    vm_compute. reflexivity.
  - vm_compute. reflexivity.
  - vm_compute. discriminate.
Defined.

Example mixed_summary : summary mixed = (2, 4, 1).
Proof. by vm_compute. Qed.

(** The runs with at most two lines per set and no eviction from a
    one-line set come out as expected: three accesses to one address; two
    addresses in two sets; an [M] line on an empty two-way cache; and
    addresses 0, 16, 0, 32 on one two-way set, where 32 evicts 16. *)
Example three_accesses_one_line :
  simulate bump 0 1 0 [(Load, 0); (Load, 0); (Load, 0)] = Ok (2, 1, 0).
Proof. by vm_compute. Qed.

Example two_sets_no_contention :
  simulate bump 1 1 0 [(Load, 0); (Load, 1)] = Ok (0, 2, 0).
Proof. by vm_compute. Qed.

Example modify_on_empty_two_way :
  simulate bump 1 2 1 [(Modify, 4)] = Ok (1, 1, 0).
Proof. by vm_compute. Qed.

Example reuse_then_evict_two_way :
  simulate bump 0 2 0 [(Load, 0); (Load, 16); (Load, 0); (Load, 32)]
    = Ok (1, 3, 1) ∧
  (do g <- accesses bump [0; 16; 0; 32] (init_cache bump 0 2 0);
   Ok (live_tags g 0)) = Ok (Some [32; 0]).
Proof. split; by vm_compute. Qed.

(** * The lines a set holds, access by access *)

Lemma live_tags_rep ll g i l :
  rep ll g → ll !! i = Some l → live_tags g i = Some (tags_of l).
Proof.
  intros Hrep Hl. unfold live_tags.
  rewrite (set_blocks_rep ll g i l Hrep Hl). by rewrite image_tags.
Qed.

Section TagFacts.
Context {X : Type}.
Implicit Types (l : list (X * cell)) (x c : X * cell).

Lemma tags_of_valid l :
  Forall (λ x, cvalid x.2 = 1) l → tags_of l = map (λ x, ctag x.2) l.
Proof. intros Hv. unfold tags_of. by rewrite filter_Forall_id. Qed.

Lemma tags_of_keys l :
  tags_of l = (filter (λ k : Z * Z, k.2 = 1) (key <$> l)).*1.
Proof.
  unfold tags_of. induction l as [|x l IH]; [done|].
  rewrite fmap_cons, !filter_cons. simpl.
  destruct (decide (cvalid x.2 = 1)); simpl; by rewrite IH.
Qed.

Lemma tags_of_perm l l' :
  key <$> l' ≡ₚ key <$> l → tags_of l' ≡ₚ tags_of l.
Proof. intros Hp. rewrite !tags_of_keys. by rewrite Hp. Qed.

Lemma set_inv_tags vE sz l :
  set_inv vE sz l →
  Z.of_nat (length (tags_of l)) = sz ∧ sz ≤ Z.max 0 vE ∧ NoDup (tags_of l) ∧
  (sz = 0 ∨ tags_of l = map (λ x, ctag x.2) l).
Proof.
  intros [[-> (x & -> & Hx)]|(Hlen & Hb & Hv & Hnd)].
  - unfold tags_of. rewrite filter_cons.
    destruct (decide (cvalid x.2 = 1)); [lia|]. simpl.
    split; [done|]. split; [lia|]. split; [constructor|by left].
  - rewrite tags_of_valid by done. rewrite length_map.
    split; [done|]. split; [lia|]. split; [done|by right].
Qed.

(** The three ways an access to a set with its invariant can go. *)
Lemma set_access_cases vE t (new : X) sz l :
  1 ≤ vE → set_inv vE sz l →
  (t ∈ tags_of l ∧
   ∃ l', set_access vE t new sz l = Some (Hit, sz, l') ∧
         tags_of l' ≡ₚ tags_of l) ∨
  ((t ∉ tags_of l) ∧ sz < vE ∧
   ∃ l', set_access vE t new sz l = Some (Miss, sz + 1, l') ∧
         tags_of l' = t :: tags_of l) ∨
  ((t ∉ tags_of l) ∧ sz = vE ∧
   (set_access vE t new sz l = None ∨
    ∃ l', set_access vE t new sz l = Some (MissEvict, sz - 1 + 1, l') ∧
          tags_of l' = t :: removelast (tags_of l))).
Proof.
  intros HE Hinv. unfold set_access.
  destruct Hinv as [[-> (x & -> & Hx)]|(Hlen & Hb & Hv & Hnd)].
  - right. left. simpl.
    assert ((cvalid x.2 =? 1) = false) as -> by (apply Z.eqb_neq; lia).
    rewrite andb_false_r. unfold list_miss. simpl.
    unfold tags_of. rewrite !filter_cons. simpl.
    destruct (decide (cvalid x.2 = 1)); [lia|]. simpl.
    split; [by intros ?%elem_of_nil|]. split; [lia|]. by eexists.
  - destruct (find_split_is_Some t l) as [[[l1 c] l2] Hfs].
    { intros ->. simpl in Hlen. lia. }
    rewrite Hfs.
    destruct (find_split_spec _ _ _ _ _ Hfs) as (-> & Hl1 & Hc).
    pose proof Hv as Hv'. apply Forall_app in Hv' as [Hv1 Hv2].
    apply Forall_cons in Hv2 as [Hvc Hv2].
    apply Z.eqb_eq in Hvc. rewrite Hvc, andb_true_r.
    rewrite (tags_of_valid _ Hv).
    destruct (ctag c.2 =? t) eqn:Ht.
    + apply Z.eqb_eq in Ht. left. split.
      * rewrite map_app. apply elem_of_app. right. simpl. rewrite Ht. left.
      * eexists. split; [done|].
        rewrite <- (tags_of_valid _ Hv). apply tags_of_perm, list_hit_keys.
    + apply Z.eqb_neq in Ht. destruct Hc as [?| ->]; [done|].
      assert (t ∉ map (λ x, ctag x.2) (l1 ++ [c])) as Hfresh.
      { rewrite map_app. simpl. intros [Hin|Hin]%elem_of_app.
        - apply list_elem_of_fmap in Hin as (y & -> & Hy).
          by apply (proj1 (Forall_forall _ _) Hl1 y).
        - apply list_elem_of_singleton in Hin. done. }
      right. unfold list_miss.
      assert ((sz =? 0) = false) as -> by (apply Z.eqb_neq; lia).
      destruct (vE <=? sz) eqn:Hfull.
      * apply Z.leb_le in Hfull. right.
        split; [done|]. split; [lia|].
        destruct (list_evict (l1 ++ [c])) as [l0|] eqn:Hev; [|by left].
        right. unfold list_evict in Hev. rewrite split_last_snoc in Hev.
        destruct (linked c.2 && negb (is_nil l1)); [|done].
        injection Hev as <-. eexists. split; [done|].
        unfold list_insert_head.
        rewrite tags_of_valid.
        -- simpl. rewrite tags_on_first. f_equal.
           rewrite map_app. simpl. by rewrite removelast_last.
        -- constructor; [done|]. by apply valid_on_first.
      * apply Z.leb_gt in Hfull. left.
        split; [done|]. split; [done|]. eexists. split; [done|].
        unfold list_insert_head. rewrite tags_of_valid.
        -- simpl. by rewrite tags_on_first.
        -- constructor; [done|]. by apply valid_on_first.
Qed.

End TagFacts.

(** All that is kept between calls, with the number of sets. *)
Lemma reachable_state A vs vE vb g :
  reachable A vs vE vb g →
  ∃ ll, rep ll g ∧ s g = vs ∧ E g = vE ∧ b g = vb ∧
        length ll = Z.to_nat (num_sets_of vs) ∧
        (1 ≤ vE → sets_inv vE ll (size g)).
Proof.
  induction 1 as [|g a g' Hreach IH Hstep].
  - destruct (init_cache_rep A vs vE vb) as (ll & Hrep & Hlen & Hall).
    exists ll. split; [done|].
    unfold init_cache in *.
    destruct (init_sets A 0 (Z.to_nat (num_sets_of vs)) ∅) as [l h].
    simpl. do 4 (split; [done|]).
    intros _ i li sz Hi Hsz. simpl in Hsz.
    apply lookup_replicate in Hsz as [-> _].
    left. split; [done|].
    destruct (proj1 (Forall_forall _ _) Hall li) as [a ->].
    { by eapply list_elem_of_lookup_2. }
    by eexists.
  - destruct IH as (ll & Hrep & Hs & HE & Hb & Hlen & Hinv).
    destruct (accessData_rep A a g ll Hrep)
      as [[_ Hf]|(l & sz & Hpos & Hl & Hsz &
                  [[_ Hf]|(new & o & sz' & l' & st' & h' & Hacc & Hex & Hrep')])];
      [congruence|congruence|].
    rewrite Hex in Hstep. injection Hstep as <-.
    set (i := Z.to_nat (decode_set_index (s g) (b g) a)) in *.
    eexists. split; [done|].
    split; [by destruct o|]. split; [by destruct o|]. split; [by destruct o|].
    split; [by rewrite length_insert|].
    intros HvE j lj szj Hj Hszj.
    assert (size (put i st' sz' h'
              (count o (with_set_index (decode_set_index (s g) (b g) a) g)))
            = <[i := sz']> (size g)) as Hsize by by destruct o.
    rewrite Hsize in Hszj. clear Hsize.
    destruct (decide (j = i)) as [->|Hne].
    + rewrite list_lookup_insert_eq in Hj by by eapply lookup_lt_Some.
      rewrite list_lookup_insert_eq in Hszj by by eapply lookup_lt_Some.
      injection Hj as <-. injection Hszj as <-.
      eapply set_access_inv; [done| |by rewrite <- HE].
      by eapply Hinv.
    + rewrite list_lookup_insert_ne in Hj by done.
      rewrite list_lookup_insert_ne in Hszj by done.
      by eapply Hinv.
Qed.

(** A call of accessData on a reachable state, in terms of the tags of the
    set it decodes to. *)
Lemma accessData_tags A vs vE vb g a :
  1 ≤ vE → 0 ≤ vs ≤ 30 →
  reachable A vs vE vb g →
  let i := Z.to_nat (decode_set_index vs vb a) in
  let t := decode_tag vs vb a in
  ∃ tags sz,
    live_tags g i = Some tags ∧ size g !! i = Some sz ∧
    Z.of_nat (length tags) = sz ∧ sz ≤ vE ∧ NoDup tags ∧
    ((t ∈ tags ∧
      ∃ g' tags', accessData A a g = Ok g' ∧ summary g' = summary (count Hit g) ∧
                  size g' = size g ∧
                  live_tags g' i = Some tags' ∧ tags' ≡ₚ tags) ∨
     ((t ∉ tags) ∧ sz < vE ∧
      ∃ g', accessData A a g = Ok g' ∧ summary g' = summary (count Miss g) ∧
            size g' = <[i := sz + 1]> (size g) ∧
            live_tags g' i = Some (t :: tags)) ∨
     ((t ∉ tags) ∧ sz = vE ∧
      (accessData A a g = Fault NullDeref ∨
       ∃ g', accessData A a g = Ok g' ∧
             summary g' = summary (count MissEvict g) ∧
             size g' = size g ∧
             live_tags g' i = Some (t :: removelast tags)))).
Proof.
  intros HE Hvs Hreach i t.
  destruct (reachable_state A vs vE vb g Hreach)
    as (ll & Hrep & Hs & HgE & Hb & Hlen & Hinv).
  specialize (Hinv HE).
  destruct (decode_set_index_spec vs vb a Hvs) as [_ Hidx].
  destruct (accessData_rep A a g ll Hrep)
    as [[Hout _]|(l & sz & Hpos & Hl & Hsz & Hcases)].
  { exfalso. apply Hout. rewrite Hs, Hb, Hlen, num_sets_of_small by done. lia. }
  rewrite Hs, Hb, HgE in *. fold i t in Hl, Hsz, Hcases.
  pose proof (Hinv i l sz Hl Hsz) as Hsi.
  destruct (set_inv_tags vE sz l Hsi) as (Hlen' & Hle & Hnd & _).
  exists (tags_of l), sz.
  split; [by eapply live_tags_rep|]. split; [done|]. split; [done|].
  split; [lia|]. split; [done|].
  assert (∀ o sz' (l' : list (addr * cell)) st' h',
            size (put i st' sz' h'
                   (count o (with_set_index (decode_set_index vs vb a) g)))
              = <[i := sz']> (size g) ∧
            summary (put i st' sz' h'
                   (count o (with_set_index (decode_set_index vs vb a) g)))
              = summary (count o g)) as Hput.
  { intros o ????. by destruct o. }
  destruct Hcases as [[Hnone Hf]|(new & o & sz' & l' & st' & h' & Hacc & Hex & Hrep')].
  - rewrite (set_access_forget _ _ 1%positive) in Hnone.
    destruct (set_access_cases vE t 1%positive sz l HE Hsi)
      as [(_ & l' & Hacc & _)|[(_ & _ & l' & Hacc & _)|(Hnin & Hfull & [_|(l' & Hacc & _)])]];
      try (by rewrite Hacc in Hnone).
    right. right. split; [done|]. split; [done|]. by left.
  - destruct (Hput o sz' l' st' h') as [Hsize Hsum].
    assert (live_tags (put i st' sz' h'
               (count o (with_set_index (decode_set_index vs vb a) g))) i
            = Some (tags_of l')) as Hlive.
    { eapply live_tags_rep; [done|].
      apply list_lookup_insert_eq. by eapply lookup_lt_Some. }
    destruct (set_access_cases vE t new sz l HE Hsi)
      as [(Hin & l2 & Hacc2 & Hp)|[(Hnin & Hlt & l2 & Hacc2 & Ht)
         |(Hnin & Hfull & [Hacc2|(l2 & Hacc2 & Ht)])]];
      rewrite Hacc2 in Hacc; try done; injection Hacc as <- <- <-.
    + left. split; [done|]. eexists _, _. split; [done|]. split; [done|].
      split; [|done]. rewrite Hsize. by apply list_insert_id.
    + right. left. split; [done|]. split; [done|]. eexists.
      split; [done|]. split; [done|]. split; [done|]. by rewrite Hlive, Ht.
    + right. right. split; [done|]. split; [done|]. right. eexists.
      split; [done|]. split; [done|]. split.
      * rewrite Hsize. apply list_insert_id. rewrite Hsz. f_equal. lia.
      * by rewrite Hlive, Ht.
Qed.

(** Property X2 (hits are exactly the resident lines).  On a reachable
    state with E >= 1 and at most 30 index bits, a call of accessData that
    returns increments [hit_count] exactly when the tag of the address is
    among the valid blocks of its set, and [miss_count] exactly when it is
    not.  The increment is that of an [int]: one more, or INT_MIN after
    INT_MAX. *)
Theorem hit_iff_resident A vs vE vb g a g' tags :
  1 ≤ vE → 0 ≤ vs ≤ 30 →
  reachable A vs vE vb g →
  live_tags g (Z.to_nat (decode_set_index vs vb a)) = Some tags →
  accessData A a g = Ok g' →
  (hit_count g' = incr (hit_count g) ↔ decode_tag vs vb a ∈ tags) ∧
  (miss_count g' = incr (miss_count g) ↔ decode_tag vs vb a ∉ tags).
Proof.
  intros HE Hvs Hreach Hlive Hstep.
  destruct (accessData_tags A vs vE vb g a HE Hvs Hreach)
    as (tags0 & sz & Hlive0 & _ & _ & _ & _ & Hcases).
  rewrite Hlive in Hlive0. injection Hlive0 as <-.
  destruct Hcases as [(Hin & g1 & tags' & Hex & Hsum & _)
    |[(Hnin & _ & g1 & Hex & Hsum & _)|(Hnin & _ & [Hex|(g1 & Hex & Hsum & _)])]];
    rewrite Hex in Hstep; try done; injection Hstep as <-;
    unfold summary in Hsum; simpl in Hsum; injection Hsum as H1 H2 H3;
    split; split; intros; try done;
    try (exfalso; apply (incr_ne (hit_count g)); congruence);
    try (exfalso; apply (incr_ne (miss_count g)); congruence).
Qed.

(** Property X3 (an access to a resident line).  If the tag of the
    address is among the valid blocks of its set, accessData returns, only
    [hit_count] moves (incremented as an [int]), the [size] array is
    unchanged, and the set
    holds the same tags as before, possibly in another order. *)
Theorem resident_access_hits A vs vE vb g a tags :
  1 ≤ vE → 0 ≤ vs ≤ 30 →
  reachable A vs vE vb g →
  live_tags g (Z.to_nat (decode_set_index vs vb a)) = Some tags →
  decode_tag vs vb a ∈ tags →
  ∃ g' tags',
    accessData A a g = Ok g' ∧
    summary g' = summary (count Hit g) ∧
    size g' = size g ∧
    live_tags g' (Z.to_nat (decode_set_index vs vb a)) = Some tags' ∧
    tags' ≡ₚ tags.
Proof.
  intros HE Hvs Hreach Hlive Hin.
  destruct (accessData_tags A vs vE vb g a HE Hvs Hreach)
    as (tags0 & sz & Hlive0 & _ & _ & _ & _ & Hcases).
  rewrite Hlive in Hlive0. injection Hlive0 as <-.
  destruct Hcases as [(_ & Hok)|[(Hnin & _)|(Hnin & _)]]; done.
Qed.


(** Property X5 (a miss in a full set).  If the tag is not in the
    set, the set holds E lines and accessData returns, then [miss_count] and
    [eviction_count] were each incremented (as [int]s), [size] is unchanged,
    and the set
    holds the new tag in front of the tags it held without the last one. *)
Theorem miss_on_full_set_evicts_last A vs vE vb g a g' tags :
  1 ≤ vE → 0 ≤ vs ≤ 30 →
  reachable A vs vE vb g →
  live_tags g (Z.to_nat (decode_set_index vs vb a)) = Some tags →
  decode_tag vs vb a ∉ tags →
  Z.of_nat (length tags) = vE →
  accessData A a g = Ok g' →
  summary g' = summary (count MissEvict g) ∧
  size g' = size g ∧
  live_tags g' (Z.to_nat (decode_set_index vs vb a)) =
    Some (decode_tag vs vb a :: removelast tags).
Proof.
  intros HE Hvs Hreach Hlive Hnin Hfull Hstep.
  destruct (accessData_tags A vs vE vb g a HE Hvs Hreach)
    as (tags0 & sz & Hlive0 & _ & Hlen & _ & _ & Hcases).
  rewrite Hlive in Hlive0. injection Hlive0 as <-.
  destruct Hcases as [(Hin & _)|[(_ & Hlt & _)|(_ & _ & [Hex|(g1 & Hex & Hok)])]];
    [done|lia|congruence|].
  rewrite Hex in Hstep. by injection Hstep as <-.
Qed.

(** Property X6 (the accessed line is resident afterwards).  After a
    call of accessData that returns, the tag of the address is among the
    valid blocks of its set. *)
Theorem accessed_line_is_resident A vs vE vb g a g' :
  1 ≤ vE → 0 ≤ vs ≤ 30 →
  reachable A vs vE vb g →
  accessData A a g = Ok g' →
  ∃ tags', live_tags g' (Z.to_nat (decode_set_index vs vb a)) = Some tags' ∧
           decode_tag vs vb a ∈ tags'.
Proof.
  intros HE Hvs Hreach Hstep.
  destruct (accessData_tags A vs vE vb g a HE Hvs Hreach)
    as (tags & sz & _ & _ & _ & _ & _ & Hcases).
  destruct Hcases as [(Hin & g1 & tags' & Hex & _ & _ & Hl & Hp)
    |[(_ & _ & g1 & Hex & _ & _ & Hl)|(_ & _ & [Hex|(g1 & Hex & _ & _ & Hl)])]];
    rewrite Hex in Hstep; try done; injection Hstep as <-;
    eexists; (split; [done|]).
  - by rewrite Hp.
  - left.
  - left.
Qed.


(** Property X8 (what [size] counts).  In every reachable state
    with E >= 1 and at most 30 index bits, for every set index [i] below
    2^s, [size[i]] is the number of valid blocks of set [i] read along
    [next] from [LRU_head]. *)
Theorem size_counts_valid_blocks A vs vE vb g i :
  1 ≤ vE → 0 ≤ vs ≤ 30 →
  reachable A vs vE vb g →
  (i < Z.to_nat (2 ^ vs))%nat →
  ∃ tags, live_tags g i = Some tags ∧
          size g !! i = Some (Z.of_nat (length tags)).
Proof.
  intros HE Hvs Hreach Hi.
  destruct (reachable_state A vs vE vb g Hreach)
    as (ll & Hrep & _ & _ & _ & Hlen & Hinv).
  rewrite <- (num_sets_of_small vs), <- Hlen in Hi by done.
  destruct (lookup_lt_is_Some_2 ll i Hi) as [l Hl].
  destruct (rep_set_at _ _ Hrep i l Hl) as (st & sz & _ & Hsz & _).
  destruct (set_inv_tags vE sz l (Hinv HE i l sz Hl Hsz)) as (Hlen' & _).
  exists (tags_of l). split; [by eapply live_tags_rep|]. by rewrite Hlen'.
Qed.

(** ** At most one line per set *)

Lemma tags_of_single {X} (x : X * cell) :
  tags_of [x] = if decide (cvalid x.2 = 1) then [ctag x.2] else [].
Proof.
  unfold tags_of. rewrite filter_cons, filter_nil.
  by destruct (decide (cvalid x.2 = 1)).
Qed.

Lemma set_access_one {X} vE t (new : X) sz l :
  vE ≤ 1 → one_inv sz l →
  match set_access vE t new sz l with
  | Some (o, sz', l') =>
      one_inv sz' l' ∧ tags_of l' = [t] ∧ (tags_of l = [] ∨ tags_of l = [t])
  | None => tags_of l ≠ [] ∧ tags_of l ≠ [t] ∧ sz = 1
  end.
Proof.
  intros HE (x & -> & Hx). rewrite (tags_of_single x).
  unfold set_access, list_miss, list_hit, list_evict. simpl.
  destruct Hx as [[-> Hv]|[-> Hv]].
  - destruct (decide (cvalid x.2 = 1)); [done|].
    assert ((cvalid x.2 =? 1) = false) as -> by by apply Z.eqb_neq.
    rewrite andb_false_r. simpl.
    split; [|split; [by rewrite tags_of_single|by left]].
    exists (fill t x). split; [done|]. right. done.
  - destruct (decide (cvalid x.2 = 1)); [|done].
    rewrite Hv. simpl. rewrite andb_true_r.
    destruct (ctag x.2 =? t) eqn:Ht.
    + apply Z.eqb_eq in Ht.
      split; [|split].
      * exists x. split; [done|]. right. done.
      * rewrite tags_of_single. destruct (decide _); [by rewrite Ht|done].
      * right. by rewrite Ht.
    + apply Z.eqb_neq in Ht.
      assert ((vE <=? 1) = true) as -> by by apply Z.leb_le.
      rewrite andb_false_r.
      split; [done|]. split; [congruence|done].
Qed.

Lemma reachable_one_way A vs vE vb g :
  vE ≤ 1 →
  reachable A vs vE vb g →
  ∃ ll, rep ll g ∧ s g = vs ∧ E g = vE ∧ b g = vb ∧
        length ll = Z.to_nat (num_sets_of vs) ∧
        ∀ i l sz, ll !! i = Some l → size g !! i = Some sz → one_inv sz l.
Proof.
  intros HE. induction 1 as [|g a g' Hreach IH Hstep].
  - destruct (init_cache_rep A vs vE vb) as (ll & Hrep & Hlen & Hall).
    exists ll. split; [done|].
    unfold init_cache in *.
    destruct (init_sets A 0 (Z.to_nat (num_sets_of vs)) ∅) as [l h].
    simpl. do 4 (split; [done|]).
    intros i li sz Hi Hsz. simpl in Hsz.
    apply lookup_replicate in Hsz as [-> _].
    destruct (proj1 (Forall_forall _ _) Hall li) as [a ->].
    { by eapply list_elem_of_lookup_2. }
    eexists. split; [done|]. left. done.
  - destruct IH as (ll & Hrep & Hs & HgE & Hb & Hlen & Hinv).
    destruct (accessData_rep A a g ll Hrep)
      as [[_ Hf]|(l & sz & Hpos & Hl & Hsz &
                  [[_ Hf]|(new & o & sz' & l' & st' & h' & Hacc & Hex & Hrep')])];
      [congruence|congruence|].
    rewrite Hex in Hstep. injection Hstep as <-.
    set (i := Z.to_nat (decode_set_index (s g) (b g) a)) in *.
    eexists. split; [done|].
    split; [by destruct o|]. split; [by destruct o|]. split; [by destruct o|].
    split; [by rewrite length_insert|].
    intros j lj szj Hj Hszj.
    assert (size (put i st' sz' h'
              (count o (with_set_index (decode_set_index (s g) (b g) a) g)))
            = <[i := sz']> (size g)) as Hsize by by destruct o.
    rewrite Hsize in Hszj. clear Hsize.
    destruct (decide (j = i)) as [->|Hne].
    + rewrite list_lookup_insert_eq in Hj by by eapply lookup_lt_Some.
      rewrite list_lookup_insert_eq in Hszj by by eapply lookup_lt_Some.
      injection Hj as <-. injection Hszj as <-.
      pose proof (set_access_one (E g) (decode_tag (s g) (b g) a) new sz l)
        as Hone.
      rewrite Hacc in Hone. apply Hone; [lia|by eapply Hinv].
    + rewrite list_lookup_insert_ne in Hj by done.
      rewrite list_lookup_insert_ne in Hszj by done.
      by eapply Hinv.
Qed.

(** Property X9 (one line per set).  With E <= 1, an access returns
    when its set is still empty or holds exactly the tag of the address, and
    the set then holds that tag alone; an access with another tag to a set
    that holds a line is a NULL dereference.  A direct-mapped cache cannot
    replace a line. *)
Theorem one_way_access A vs vE vb g a :
  vE ≤ 1 → 0 ≤ vs ≤ 30 →
  reachable A vs vE vb g →
  ∃ tags,
    live_tags g (Z.to_nat (decode_set_index vs vb a)) = Some tags ∧
    (tags = [] ∨ tags = [decode_tag vs vb a] →
     ∃ g', accessData A a g = Ok g' ∧
           live_tags g' (Z.to_nat (decode_set_index vs vb a)) =
             Some [decode_tag vs vb a]) ∧
    (tags ≠ [] → tags ≠ [decode_tag vs vb a] →
     accessData A a g = Fault NullDeref).
Proof.
  intros HE Hvs Hreach.
  destruct (reachable_one_way A vs vE vb g HE Hreach)
    as (ll & Hrep & Hs & HgE & Hb & Hlen & Hinv).
  destruct (decode_set_index_spec vs vb a Hvs) as [_ Hidx].
  destruct (accessData_rep A a g ll Hrep)
    as [[Hout _]|(l & sz & Hpos & Hl & Hsz & Hcases)].
  { exfalso. apply Hout. rewrite Hs, Hb, Hlen, num_sets_of_small by done. lia. }
  rewrite Hs, Hb, HgE in *.
  set (i := Z.to_nat (decode_set_index vs vb a)) in *.
  set (t := decode_tag vs vb a) in *.
  exists (tags_of l). split; [by eapply live_tags_rep|].
  destruct Hcases as [[Hnone Hf]|(new & o & sz' & l' & st' & h' & Hacc & Hex & Hrep')].
  - rewrite (set_access_forget _ _ 1%positive) in Hnone.
    pose proof (set_access_one vE t 1%positive sz l HE (Hinv i l sz Hl Hsz))
      as Hone.
    destruct (set_access vE t 1%positive sz l) as [[[??]?]|]; [done|].
    destruct Hone as (H1 & H2 & _). split; [|done].
    intros [Hx|Hx]; [by apply H1 in Hx|by apply H2 in Hx].
  - pose proof (set_access_one vE t new sz l HE (Hinv i l sz Hl Hsz)) as Hone.
    rewrite Hacc in Hone. destruct Hone as (_ & Ht' & Hor). split.
    + intros _. eexists. split; [done|]. rewrite <- Ht'.
      eapply live_tags_rep; [done|].
      apply list_lookup_insert_eq. by eapply lookup_lt_Some.
    + intros ??. by destruct Hor.
Qed.

(** ** Two lines per set: the simulator is an LRU cache *)



Lemma accesses_cons A a l g :
  accesses A (a :: l) g = do g' <- accessData A a g; accesses A l g'.
Proof. done. Qed.

Lemma incr_to_int x : incr (to_int x) = to_int (x + 1).
Proof.
  unfold incr, to_int.
  replace ((x + 2 ^ 31) mod 2 ^ 32 - 2 ^ 31 + 1 + 2 ^ 31)
    with ((x + 2 ^ 31) mod 2 ^ 32 + 1) by lia.
  rewrite Zplus_mod_idemp_l. do 2 f_equal. lia.
Qed.


Lemma length_trace_addresses tr :
  Z.of_nat (length (trace_addresses tr)) = total_accesses tr.
Proof.
  induction tr as [|[o a] tr IH]; [done|].
  destruct o; simpl; simpl in IH; lia.
Qed.


Lemma replayTrace_accesses A tr : ∀ g,
  replayTrace A tr g = accesses A (trace_addresses tr) g.
Proof.
  induction tr as [|[o a] tr IH]; intros g; [done|].
  destruct o; simpl; rewrite ?accesses_cons.
  - apply IH.
  - destruct (accessData A a g); simpl; [apply IH|done].
  - destruct (accessData A a g); simpl; [apply IH|done].
  - destruct (accessData A a g) as [g1|]; simpl; [|done].
    rewrite accesses_cons.
    destruct (accessData A a g1); simpl; [apply IH|done].
Qed.



(** ** Misses, evictions and the lines held *)

Lemma sum_insert (l : list Z) i x y :
  l !! i = Some x →
  foldr Z.add 0 (<[i := y]> l) = foldr Z.add 0 l - x + y.
Proof.
  revert i. induction l as [|z l IH]; intros [|i]; try done; simpl.
  - intros [= ->]. lia.
  - intros Hi. rewrite (IH i Hi). lia.
Qed.

Lemma sum_replicate n : foldr Z.add 0 (replicate n 0) = 0.
Proof. induction n as [|n IH]; [done|]. simpl. by rewrite IH. Qed.

Lemma set_access_size {X} vE t (new : X) sz l o sz' l' :
  set_access vE t new sz l = Some (o, sz', l') →
  sz' = match o with Miss => sz + 1 | _ => sz end.
Proof.
  unfold set_access, list_miss.
  destruct (find_split t l) as [[[l1 c] l2]|]; [|done].
  destruct ((ctag c.2 =? t) && (cvalid c.2 =? 1)).
  { by intros [= <- <- <-]. }
  destruct (sz =? 0). { by intros [= <- <- <-]. }
  destruct (vE <=? sz).
  - destruct (list_evict l); [|done]. intros [= <- <- <-]. lia.
  - by intros [= <- <- <-].
Qed.

Lemma accessData_lines_held A g a g' ll :
  rep ll g →
  accessData A a g = Ok g' →
  ∃ o, summary g' = summary (count o g) ∧
       lines_held g' = lines_held g + match o with Miss => 1 | _ => 0 end.
Proof.
  intros Hrep Hstep.
  destruct (accessData_rep A a g ll Hrep)
    as [[_ Hf]|(l & sz & Hpos & Hl & Hsz &
                [[_ Hf]|(new & o & sz' & l' & st' & h' & Hacc & Hex & _)])];
    [congruence|congruence|].
  rewrite Hex in Hstep. injection Hstep as <-.
  apply set_access_size in Hacc.
  exists o. split; [by destruct o|].
  unfold lines_held.
  assert (size (put (Z.to_nat (decode_set_index (s g) (b g) a)) st' sz' h'
             (count o (with_set_index (decode_set_index (s g) (b g) a) g)))
          = <[Z.to_nat (decode_set_index (s g) (b g) a) := sz']> (size g)) as ->
    by by destruct o.
  rewrite (sum_insert _ _ sz) by done.
  destruct o; lia.
Qed.

(** While the counters do not wrap, the misses that were not evictions
    are the lines held. *)
Lemma accesses_lines_held A vs vE vb l : ∀ g g',
  reachable A vs vE vb g →
  0 ≤ hit_count g → 0 ≤ eviction_count g ≤ miss_count g →
  hit_count g + miss_count g + Z.of_nat (length l) < 2 ^ 31 →
  miss_count g = eviction_count g + lines_held g →
  accesses A l g = Ok g' →
  miss_count g' = eviction_count g' + lines_held g'.
Proof.
  induction l as [|a l IH]; intros g g' Hreach Hh He Hb Hinv Hrun.
  - by injection Hrun as <-.
  - rewrite accesses_cons in Hrun.
    destruct (accessData A a g) as [g1|] eqn:Hstep; [|done]. simpl in Hrun.
    destruct (reachable_rep A vs vE vb g Hreach) as (ll & Hrep & _).
    destruct (accessData_lines_held A g a g1 ll Hrep Hstep)
      as (o & Hsum & Hlines).
    rewrite length_cons in Hb.
    injection Hsum as H1 H2 H3.
    pose proof (accessData_counts_exact A vs vE vb g a g1 Hreach Hstep Hh He
                  ltac:(lia)) as Hc.
    assert (miss_count g1 - eviction_count g1 =
            miss_count g - eviction_count g +
              match o with Miss => 1 | _ => 0 end) as Hd.
    { destruct o; simpl in H2, H3;
        rewrite ?incr_small in H2 by lia; rewrite ?incr_small in H3 by lia;
        lia. }
    apply (IH g1 g' (reach_step _ _ _ _ _ _ _ Hreach Hstep)); [| | | |done];
      lia.
Qed.

(** Property X11 (lines are neither lost nor made up).  After a trace
    of fewer than 2^31 accesses has been replayed from the constructed
    cache, the number of misses is the number of evictions plus the sum of
    the [size] array. *)
Theorem misses_are_evictions_plus_lines_held A vs vE vb tr g :
  total_accesses tr < 2 ^ 31 →
  replayTrace A tr (init_cache A vs vE vb) = Ok g →
  miss_count g = eviction_count g + lines_held g.
Proof.
  intros Hlen Hrun. rewrite replayTrace_accesses in Hrun.
  rewrite <- length_trace_addresses in Hlen.
  assert (summary (init_cache A vs vE vb) = (0, 0, 0) ∧
          lines_held (init_cache A vs vE vb) = 0) as [Hsum Hlines].
  { unfold init_cache, lines_held. destruct (init_sets _ _ _ _). simpl.
    by rewrite sum_replicate. }
  injection Hsum as H1 H2 H3.
  eapply (accesses_lines_held A vs vE vb); [apply reach_init| | | | |done];
    lia.
Qed.

(** ** The block offset is ignored *)

Lemma decode_same_block vs vb a1 a2 :
  0 ≤ vs → 0 ≤ vb → vs + vb < 64 → a1 / 2 ^ vb = a2 / 2 ^ vb →
  decode_set_index vs vb a1 = decode_set_index vs vb a2 ∧
  decode_tag vs vb a1 = decode_tag vs vb a2.
Proof.
  intros Hvs Hvb Hsb Heq. rewrite <- !Z.shiftr_div_pow2 in Heq by done.
  unfold decode_set_index, decode_tag.
  rewrite !shr64_small by lia.
  rewrite (Z.add_comm vs vb), <- !Z.shiftr_shiftr by done.
  by rewrite Heq.
Qed.

(** Property X12 (the block offset is ignored).  When the s index bits
    and the b offset bits fit the 64-bit address (s + b < 64), two
    addresses in the same block of 2^b bytes are treated alike by
    accessData, and after a returning access to one of them the access to
    the other returns and is a hit. *)
Theorem same_block_access_hits A vs vE vb g a1 a2 g1 :
  0 ≤ vs → 0 ≤ vb → vs + vb < 64 →
  reachable A vs vE vb g →
  a1 / 2 ^ vb = a2 / 2 ^ vb →
  accessData A a1 g = Ok g1 →
  accessData A a2 g = Ok g1 ∧
  ∃ g2, accessData A a2 g1 = Ok g2 ∧ summary g2 = summary (count Hit g1).
Proof.
  intros Hvs Hvb Hsb Hreach Hblk Hstep.
  assert (∀ g0, reachable A vs vE vb g0 →
            accessData A a2 g0 = accessData A a1 g0) as Hsame.
  { intros g0 Hr.
    destruct (reachable_rep A vs vE vb g0 Hr) as (_ & _ & Hs & _ & Hb & _).
    destruct (decode_same_block vs vb a1 a2 Hvs Hvb Hsb Hblk) as [Hi Ht].
    rewrite !accessData_body. by rewrite Hs, Hb, Hi, Ht. }
  split; [by rewrite Hsame|].
  rewrite Hsame by by eapply reach_step.
  by eapply modify_second_access_hits.
Qed.

(** ** An address is its tag, its set index and its block offset *)

(** Property X13 (tag, set index and offset make up the address).
    For at most 30 index bits, s + b < 64 and a 64-bit address below
    2^(31+s+b), the tag and the set index of lines 120-121 and the low b
    bits give the address back. *)
Theorem decode_round_trip vs vb a :
  0 ≤ vs ≤ 30 → 0 ≤ vb → vs + vb < 64 →
  0 ≤ a < 2 ^ 64 → a < 2 ^ (31 + vs + vb) →
  (decode_tag vs vb a * 2 ^ vs + decode_set_index vs vb a) * 2 ^ vb
    + a mod 2 ^ vb = a.
Proof.
  intros Hvs Hvb Hsb Ha Ha'.
  destruct (decode_set_index_spec vs vb a Hvs) as [-> _].
  unfold decode_tag. rewrite !shr64_small by lia.
  rewrite (Z.add_comm vs vb), <- Z.shiftr_shiftr by lia.
  rewrite !Z.shiftr_div_pow2 by lia.
  assert (0 < 2 ^ vb) as Hpb by (apply Z.pow_pos_nonneg; lia).
  assert (0 < 2 ^ vs) as Hps by (apply Z.pow_pos_nonneg; lia).
  replace (2 ^ vs - 1) with (Z.ones vs) by (rewrite Z.ones_equiv; lia).
  rewrite Z.land_ones by lia.
  rewrite to_int_small.
  - pose proof (Z.div_mod (a / 2 ^ vb) (2 ^ vs)).
    pose proof (Z.div_mod a (2 ^ vb)). lia.
  - split.
    + assert (0 ≤ a / 2 ^ vb / 2 ^ vs); [|lia].
      apply Z.div_pos; [apply Z.div_pos|]; lia.
    + rewrite Z.div_div by lia. apply Z.div_lt_upper_bound; [lia|].
      rewrite <- !Z.pow_add_r by lia.
      replace (vb + vs + 31) with (31 + vs + vb) by lia. lia.
Qed.

(** Property X14 (decoding an address made of its fields).  For at
    most 30 index bits, s + b < 64, a tag below 2^31, a set index below 2^s
    and an offset below 2^b, the address with these fields, when it is a
    64-bit value, decodes to this tag and this set index. *)
Theorem decode_of_fields vs vb t i o :
  0 ≤ vs ≤ 30 → 0 ≤ vb → vs + vb < 64 →
  0 ≤ t < 2 ^ 31 → 0 ≤ i < 2 ^ vs → 0 ≤ o < 2 ^ vb →
  (t * 2 ^ vs + i) * 2 ^ vb + o < 2 ^ 64 →
  decode_tag vs vb ((t * 2 ^ vs + i) * 2 ^ vb + o) = t ∧
  decode_set_index vs vb ((t * 2 ^ vs + i) * 2 ^ vb + o) = i.
Proof.
  intros Hvs Hvb Hsb Ht Hi Ho _.
  destruct (decode_set_index_spec vs vb ((t * 2 ^ vs + i) * 2 ^ vb + o) Hvs)
    as [-> _].
  unfold decode_tag. rewrite !shr64_small by lia.
  rewrite (Z.add_comm vs vb), <- Z.shiftr_shiftr by lia.
  rewrite !Z.shiftr_div_pow2 by lia.
  assert (0 < 2 ^ vb) as Hpb by (apply Z.pow_pos_nonneg; lia).
  assert (0 < 2 ^ vs) as Hps by (apply Z.pow_pos_nonneg; lia).
  replace (2 ^ vs - 1) with (Z.ones vs) by (rewrite Z.ones_equiv; lia).
  rewrite Z.land_ones by lia.
  rewrite Z.div_add_l by lia. rewrite (Z.div_small o) by lia.
  rewrite Z.add_0_r.
  split.
  - rewrite Z.div_add_l by lia. rewrite (Z.div_small i) by lia.
    rewrite Z.add_0_r. apply to_int_small. lia.
  - rewrite Z.add_comm, Z.mod_add by lia. apply Z.mod_small. lia.
Qed.

(** ** replayTrace: what the operation letters amount to *)

Lemma accesses_app A l1 : ∀ l2 g,
  accesses A (l1 ++ l2) g = do g' <- accesses A l1 g; accesses A l2 g'.
Proof.
  induction l1 as [|a l1 IH]; intros l2 g; [done|].
  rewrite <- app_comm_cons, !accesses_cons.
  destruct (accessData A a g); simpl; [apply IH|done].
Qed.

Lemma trace_addresses_app tr1 tr2 :
  trace_addresses (tr1 ++ tr2) = trace_addresses tr1 ++ trace_addresses tr2.
Proof.
  induction tr1 as [|[o a] tr1 IH]; [done|].
  destruct o; simpl; by rewrite ?IH.
Qed.

(** Property X15 (operation letters).  Replaying a trace is the
    same as replaying load lines for [trace_addresses]: an [I] line does
    nothing, [S] is treated as [L], and [M] as two [L] lines of the same
    address.  The summary of a simulation is that of these loads, and
    their number is [total_accesses]. *)
Theorem replayTrace_is_plain_accesses A vs vE vb tr :
  (∀ g, replayTrace A tr g =
        replayTrace A (map (λ a, (Load, a)) (trace_addresses tr)) g) ∧
  simulate A vs vE vb tr =
    simulate A vs vE vb (map (λ a, (Load, a)) (trace_addresses tr)) ∧
  Z.of_nat (length (trace_addresses tr)) = total_accesses tr.
Proof.
  split; [intros g; apply replayTrace_accesses|]. split.
  - unfold simulate. by rewrite (replayTrace_accesses A tr).
  - induction tr as [|[o a] tr IH]; [done|].
    destruct o; simpl; simpl in IH; lia.
Qed.

Lemma replayTrace_app A tr1 tr2 g :
  replayTrace A (tr1 ++ tr2) g =
  do g' <- replayTrace A tr1 g; replayTrace A tr2 g'.
Proof.
  rewrite !replayTrace_accesses, trace_addresses_app, accesses_app.
  destruct (accesses A (trace_addresses tr1) g); simpl; [|done].
  by rewrite replayTrace_accesses.
Qed.

(** ** printList prints what the set holds *)

Lemma print_blocks_valid fuel g pv (l : list (addr * cell)) :
  blocks (heap g) pv l None →
  l ≠ [] →
  Forall (λ x, cvalid x.2 = 1) l →
  (length l ≤ fuel)%nat →
  print_blocks fuel (hdp l None) g = Ok (map (λ x, PrintTag (ctag x.2)) l).
Proof.
  revert fuel pv. induction l as [|x l IH]; intros fuel pv; [done|].
  intros [Hx Hl] _ Hv Hfuel.
  apply Forall_cons in Hv as [Hvx Hv].
  destruct fuel as [|fuel]; [simpl in Hfuel; lia|].
  simpl. unfold rd. simpl. rewrite Hx. simpl. rewrite Hvx. simpl.
  destruct l as [|y l]; [done|]. simpl.
  change (Some y.1) with (hdp (y :: l) None).
  rewrite (IH fuel (Some x.1)); [done|done|done|done|simpl in *; lia].
Qed.

Lemma printList_rep ll g i l st :
  rep ll g → ll !! i = Some l → sets (c1 g) !! i = Some st →
  (∃ x, l = [x] ∧ cvalid x.2 ≠ 1) ∨ Forall (λ x, cvalid x.2 = 1) l →
  ∀ set, printList (LRU_head st) set g =
           Ok (PrintSet set :: map PrintTag (tags_of l)).
Proof.
  intros Hrep Hl Hst Hshape set.
  destruct (rep_set_at _ _ Hrep i l Hl) as (st0 & sz & Hst0 & _ & Hrs).
  rewrite Hst in Hst0. injection Hst0 as <-.
  unfold printList. rewrite (rs_head _ _ _ _ Hrs).
  destruct Hshape as [(x & -> & Hx)|Hv].
  - pose proof (rs_blocks _ _ _ _ Hrs) as [Hb _].
    unfold search_fuel. simpl. unfold rd. simpl. rewrite Hb. simpl.
    destruct (cvalid x.2 =? 1) eqn:Hc; [apply Z.eqb_eq in Hc; done|].
    simpl. rewrite tags_of_single. by destruct (decide _).
  - rewrite (print_blocks_valid _ g None l).
    + simpl. rewrite (tags_of_valid l Hv). by rewrite map_map.
    + apply (rs_blocks _ _ _ _ Hrs).
    + apply (rs_nonempty _ _ _ _ Hrs).
    + done.
    + unfold search_fuel. apply Nat.le_le_succ_r.
      apply live_length; [apply (rs_nodup _ _ _ _ Hrs)|].
      intros a' Ha'. eapply blocks_live; [apply (rs_blocks _ _ _ _ Hrs)|done].
Qed.

(** Property X17 (printList).  Called on the head of set [i] in a
    reachable state with E >= 1, printList returns and prints the heading
    and then the tags of the valid blocks of the set in list order, and
    nothing else (the heading alone for a set never filled). *)
Theorem printList_prints_live_tags A vs vE vb g i st :
  1 ≤ vE →
  reachable A vs vE vb g →
  sets (c1 g) !! i = Some st →
  ∃ tags, live_tags g i = Some tags ∧
          printList (LRU_head st) (Z.of_nat i) g =
            Ok (PrintSet (Z.of_nat i) :: map PrintTag tags).
Proof.
  intros HE Hreach Hst.
  destruct (reachable_state A vs vE vb g Hreach)
    as (ll & Hrep & _ & _ & _ & Hlen & Hinv).
  assert (i < length ll)%nat as Hi.
  { rewrite <- (rep_sets_len _ _ Hrep). by eapply lookup_lt_Some. }
  destruct (lookup_lt_is_Some_2 ll i Hi) as [l Hl].
  destruct (rep_set_at _ _ Hrep i l Hl) as (st0 & sz & _ & Hsz & _).
  exists (tags_of l). split; [by eapply live_tags_rep|].
  eapply printList_rep; [done|done|done|].
  destruct (Hinv HE i l sz Hl Hsz) as [[_ (x & -> & Hx)]|(_ & _ & Hv & _)].
  - left. exists x. split; [done|lia].
  - by right.
Qed.

(** ** The lines held do not depend on malloc *)

Lemma tags_of_forget {X} (l : list (X * cell)) : tags_of (forget l) = tags_of l.
Proof.
  unfold tags_of, forget. induction l as [|x l IH]; [done|].
  simpl. rewrite !filter_cons. simpl.
  destruct (decide (cvalid x.2 = 1)); simpl; by rewrite IH.
Qed.

Lemma live_tags_rep_None ll g i :
  rep ll g → ll !! i = None → live_tags g i = None.
Proof.
  intros Hrep Hl. unfold live_tags, set_blocks.
  apply lookup_ge_None in Hl.
  rewrite (proj2 (lookup_ge_None (sets (c1 g)) i)); [done|].
  rewrite (rep_sets_len _ _ Hrep). lia.
Qed.

Lemma sim_live_tags g1 g2 i : sim g1 g2 → live_tags g1 i = live_tags g2 i.
Proof.
  intros (ll1 & ll2 & Hr1 & Hr2 & Hll & _).
  assert (forget <$> ll1 !! i = forget <$> ll2 !! i) as Hi
    by by rewrite <- !list_lookup_fmap, Hll.
  destruct (ll1 !! i) as [l1|] eqn:H1, (ll2 !! i) as [l2|] eqn:H2; try done.
  - rewrite (live_tags_rep _ _ _ _ Hr1 H1), (live_tags_rep _ _ _ _ Hr2 H2).
    injection Hi as Hi.
    by rewrite <- (tags_of_forget l1), <- (tags_of_forget l2), Hi.
  - by rewrite (live_tags_rep_None _ _ _ Hr1 H1), (live_tags_rep_None _ _ _ Hr2 H2).
Qed.

(** Property X18 (malloc does not matter).  If a trace is replayed
    to the end with one allocator, it is with any other, and the two final
    states agree on the counters, on the [size] array and on the tags each
    set holds, in order. *)
Theorem contents_independent_of_malloc A1 A2 vs vE vb tr g1 :
  replayTrace A1 tr (init_cache A1 vs vE vb) = Ok g1 →
  ∃ g2, replayTrace A2 tr (init_cache A2 vs vE vb) = Ok g2 ∧
        size g2 = size g1 ∧ summary g2 = summary g1 ∧
        ∀ i, live_tags g2 i = live_tags g1 i.
Proof.
  intros Hrun.
  pose proof (sim_replayTrace A1 A2 tr _ _ (sim_init A1 A2 vs vE vb)) as Hag.
  rewrite Hrun in Hag.
  destruct (replayTrace A2 tr (init_cache A2 vs vE vb)) as [g2|]; [|done].
  exists g2. split; [done|]. simpl in Hag.
  pose proof Hag as (_ & _ & _ & _ & _ & Hsz & _ & _ & _ & Hsum).
  split; [done|]. split; [done|].
  intros i. symmetry. by apply sim_live_tags.
Qed.

(** ** Counters past INT_MAX *)

Lemma total_accesses_loads (n : nat) a :
  total_accesses (replicate n (Load, a)) = Z.of_nat n.
Proof. induction n as [|n IH]; [done|]. simpl in *. lia. Qed.

(** Accesses to the address just accessed are hits, as many as one
    likes. *)
Lemma repeated_hits A vs vE vb a (n : nat) : ∀ g g1 h0,
  reachable A vs vE vb g →
  accessData A a g = Ok g1 →
  hit_count g1 = to_int h0 →
  ∃ g', replayTrace A (replicate n (Load, a)) g1 = Ok g' ∧
        hit_count g' = to_int (h0 + Z.of_nat n) ∧
        miss_count g' = miss_count g1 ∧
        eviction_count g' = eviction_count g1.
Proof.
  induction n as [|n IH]; intros g g1 h0 Hreach Hstep Hh.
  - exists g1. rewrite Z.add_0_r. done.
  - destruct (modify_second_access_hits A vs vE vb g a g1 Hreach Hstep)
      as (g2 & Hstep2 & Hsum).
    injection Hsum as H1 H2 H3. simpl in H1, H2, H3.
    destruct (IH g1 g2 (h0 + 1) (reach_step _ _ _ _ _ _ _ Hreach Hstep) Hstep2)
      as (g' & Hrun & Hh' & Hm' & He').
    { by rewrite H1, Hh, incr_to_int. }
    exists g'. cbn [replicate replayTrace]. rewrite Hstep2. simpl.
    split; [done|]. split; [|by rewrite Hm', He'].
    rewrite Hh'. f_equal. lia.
Qed.

(** Claim C7 as it is stated, for every trace, fails on the code.  After
    2^31 + 1 loads of address 0 (with s = 1, E = 2, b = 1), one miss and
    2^31 hits, [hit_count] is INT_MIN, and the two counters do not add up
    to the number of accesses. *)
Lemma counters_wrap_past_int_max :
  ∃ g, replayTrace bump (replicate (S (Z.to_nat (2 ^ 31))) (Load, 0))
         (init_cache bump 1 2 1) = Ok g ∧
       total_accesses (replicate (S (Z.to_nat (2 ^ 31))) (Load, 0))
         = 2 ^ 31 + 1 ∧
       hit_count g = - 2 ^ 31 ∧ miss_count g = 1 ∧
       hit_count g + miss_count g ≠
         total_accesses (replicate (S (Z.to_nat (2 ^ 31))) (Load, 0)).
Proof.
  generalize (eq_refl (Z.of_nat (Z.to_nat (2 ^ 31)))).
  generalize (Z.to_nat (2 ^ 31)) at 2 3 4 5 as n. intros n Hn.
  rewrite Z2Nat.id in Hn by lia.
  destruct (repeated_hits bump 1 2 1 0 n (init_cache bump 1 2 1)
              (state_of (accessData bump 0 (init_cache bump 1 2 1))) 0)
    as (g & Hrun & Hh & Hm & _).
  - apply reach_init.
  - vm_compute. reflexivity.
  - vm_compute. reflexivity.
  - exists g.
    assert (accessData bump 0 (init_cache bump 1 2 1) =
              Ok (state_of (accessData bump 0 (init_cache bump 1 2 1)))) as Hfirst
      by (vm_compute; reflexivity).
    rewrite !total_accesses_loads, Nat2Z.inj_succ, <- Hn.
    cbn [replicate replayTrace]. rewrite Hfirst. cbn [bind].
    split; [exact Hrun|].
    assert (miss_count (state_of (accessData bump 0 (init_cache bump 1 2 1))) = 1)
      as Hm1 by (vm_compute; reflexivity).
    rewrite Hm1 in Hm. rewrite <- Hn in Hh.
    assert (to_int (0 + 2 ^ 31) = - 2 ^ 31) as Hw by (vm_compute; reflexivity).
    rewrite Hw in Hh. lia.
Qed.

(** ** Instances on concrete runs *)

Ltac reached_by l :=
  eapply (replayTrace_reachable _ _ _ _ (map (λ a, (Load, a)) l));
  [apply reach_init|vm_compute; reflexivity].

(** Address 64 (set 0, tag 16) on [two_way], whose set 0 holds tags 32, 16. *)
Lemma hit_iff_resident_witness :
  (hit_count (state_of (accessData bump 64 two_way)) =
     incr (hit_count two_way) ↔
     decode_tag 1 1 64 ∈ [32; 16]) ∧
  (miss_count (state_of (accessData bump 64 two_way)) =
     incr (miss_count two_way) ↔
     decode_tag 1 1 64 ∉ [32; 16]).
Proof.
  apply (hit_iff_resident bump 1 2 1 two_way 64 _ [32; 16]);
    [lia|lia|reached_by [0; 64; 2; 128]|vm_compute; reflexivity
    |vm_compute; reflexivity].
Defined.

(** The same access, as a hit. *)
Lemma resident_access_hits_witness :
  ∃ g' tags',
    accessData bump 64 two_way = Ok g' ∧
    summary g' = summary (count Hit two_way) ∧
    size g' = size two_way ∧
    live_tags g' (Z.to_nat (decode_set_index 1 1 64)) = Some tags' ∧
    tags' ≡ₚ [32; 16].
Proof.
  apply (resident_access_hits bump 1 2 1 two_way 64 [32; 16]);
    [lia|lia|reached_by [0; 64; 2; 128]|vm_compute; reflexivity|].
  vm_compute. right. left.
Defined.


(** Address 256 (set 0, tag 64) on [two_way]: tag 16 goes. *)
Lemma miss_on_full_set_evicts_last_witness :
  summary (state_of (accessData bump 256 two_way)) =
    summary (count MissEvict two_way) ∧
  size (state_of (accessData bump 256 two_way)) = size two_way ∧
  live_tags (state_of (accessData bump 256 two_way))
      (Z.to_nat (decode_set_index 1 1 256)) =
    Some (decode_tag 1 1 256 :: removelast [32; 16]).
Proof.
  apply (miss_on_full_set_evicts_last bump 1 2 1 two_way 256 _ [32; 16]);
    [lia|lia|reached_by [0; 64; 2; 128]|vm_compute; reflexivity| |simpl; lia
    |vm_compute; reflexivity].
  vm_compute. intros Hin.
  inversion Hin as [|? ? ? Hin']. inversion Hin' as [|? ? ? Hin'']. inversion Hin''.
Defined.

(** Tag 64 is in set 0 after the access to address 256. *)
Lemma accessed_line_is_resident_witness :
  ∃ tags', live_tags (state_of (accessData bump 256 two_way))
             (Z.to_nat (decode_set_index 1 1 256)) = Some tags' ∧
           decode_tag 1 1 256 ∈ tags'.
Proof.
  apply (accessed_line_is_resident bump 1 2 1 two_way 256);
    [lia|lia|reached_by [0; 64; 2; 128]|vm_compute; reflexivity].
Defined.


(** Set 0 of [two_way]. *)
Lemma size_counts_valid_blocks_witness :
  ∃ tags, live_tags two_way 0 = Some tags ∧
          size two_way !! 0%nat = Some (Z.of_nat (length tags)).
Proof.
  apply (size_counts_valid_blocks bump 1 2 1 two_way 0);
    [lia|lia|reached_by [0; 64; 2; 128]|vm_compute; lia].
Defined.

(** Address 4 on [one_way]. *)
Lemma one_way_access_witness :
  ∃ tags,
    live_tags one_way (Z.to_nat (decode_set_index 1 1 4)) = Some tags ∧
    (tags = [] ∨ tags = [decode_tag 1 1 4] →
     ∃ g', accessData bump 4 one_way = Ok g' ∧
           live_tags g' (Z.to_nat (decode_set_index 1 1 4)) =
             Some [decode_tag 1 1 4]) ∧
    (tags ≠ [] → tags ≠ [decode_tag 1 1 4] →
     accessData bump 4 one_way = Fault NullDeref).
Proof.
  apply (one_way_access bump 1 1 1 one_way 4); [lia|lia|reached_by [0]].
Defined.


(** The counters of [two_way]. *)
Lemma misses_are_evictions_plus_lines_held_witness :
  miss_count two_way = eviction_count two_way + lines_held two_way.
Proof.
  apply (misses_are_evictions_plus_lines_held bump 1 2 1
           (map (λ a, (Load, a)) [0; 64; 2; 128]) two_way);
    vm_compute; reflexivity.
Defined.

(** Addresses 64 and 65 on [two_way], with blocks of two bytes. *)
Lemma same_block_access_hits_witness :
  accessData bump 65 two_way = Ok (state_of (accessData bump 64 two_way)) ∧
  ∃ g2, accessData bump 65 (state_of (accessData bump 64 two_way)) = Ok g2 ∧
        summary g2 = summary (count Hit (state_of (accessData bump 64 two_way))).
Proof.
  apply (same_block_access_hits bump 1 2 1 two_way 64 65);
    [lia|lia|lia|reached_by [0; 64; 2; 128]|vm_compute; reflexivity
    |vm_compute; reflexivity].
Defined.

(** Address 135 with s = 1, b = 1. *)
Lemma decode_round_trip_witness :
  (decode_tag 1 1 135 * 2 ^ 1 + decode_set_index 1 1 135) * 2 ^ 1
    + 135 mod 2 ^ 1 = 135.
Proof. apply (decode_round_trip 1 1 135); lia. Defined.

(** Tag 16, set 1, offset 1 with s = 1, b = 1. *)
Lemma decode_of_fields_witness :
  decode_tag 1 1 ((16 * 2 ^ 1 + 1) * 2 ^ 1 + 1) = 16 ∧
  decode_set_index 1 1 ((16 * 2 ^ 1 + 1) * 2 ^ 1 + 1) = 1.
Proof. apply (decode_of_fields 1 1 16 1 1); lia. Defined.

(** Set 0 of [two_way]. *)
Lemma printList_prints_live_tags_witness :
  ∃ tags, live_tags two_way 0 = Some tags ∧
          printList (LRU_head (default (mk_set None None)
                                 (sets (c1 two_way) !! 0%nat)))
                    (Z.of_nat 0) two_way =
            Ok (PrintSet (Z.of_nat 0) :: map PrintTag tags).
Proof.
  apply (printList_prints_live_tags bump 1 2 1 two_way 0);
    [lia|reached_by [0; 64; 2; 128]|vm_compute; reflexivity].
Defined.

(** [mixed_trace] replayed with [bump] and with [scatter]. *)
Lemma contents_independent_of_malloc_witness :
  ∃ g2, replayTrace scatter mixed_trace (init_cache scatter 1 2 1) = Ok g2 ∧
        size g2 = size mixed ∧ summary g2 = summary mixed ∧
        ∀ i, live_tags g2 i = live_tags mixed i.
Proof.
  apply (contents_independent_of_malloc bump scatter 1 2 1 mixed_trace mixed).
  vm_compute. reflexivity.
Defined.

(** The reference run, the contents with [scatter], and what printList
    writes for set 0 of [two_way]. *)
Example lru_cache_mixed :
  lru_cache 1 1 2 (trace_addresses mixed_trace) = ([[16; 32]; [0]], (2, 4, 1)).
Proof. by vm_compute. Qed.

Example scatter_mixed_contents :
  live_tags (state_of (replayTrace scatter mixed_trace (init_cache scatter 1 2 1))) 0
    = Some [16; 32].
Proof. by vm_compute. Qed.

Example printList_two_way :
  (do st <- index (sets (c1 two_way)) 0; printList (LRU_head st) 0 two_way)
    = Ok [PrintSet 0; PrintTag 32; PrintTag 16].
Proof. by vm_compute. Qed.
